(** * Audio Transcriber: size routing and the chunked transcription pipeline

    A shallow embedding of [Audio Transcriber/audio_transcriber_streamlit.py]
    ([AudioTranscriber] and [get_default_transcript_path]) together with the
    properties its specification states about it.

    Conventions of the embedding.
    - Python integers are [Z]; list lengths and loop indices are [nat].
    - A raised exception is a value of [exn]: the class name and the message.
      A call that can raise returns [exn + A] ([inl] is the raise).
    - The file system, the progress observer's private state and the hosted
      speech-to-text service are threaded through a state-and-exception monad
      [M]; effects done before a raise stay done.
    - [pathlib.Path] is embedded in its POSIX flavour. *)

From Stdlib Require Import ZArith String Ascii List Lia DecimalString.
From stdpp Require Import gmap strings list fin_maps.

Open Scope string_scope.
Open Scope Z_scope.
Open Scope list_scope.

(** ** Exceptions *)

Record exn := Raise { exn_class : string; exn_msg : string }.

Definition ZeroDivisionError (msg : string) : exn := Raise "ZeroDivisionError" msg.
Definition FileNotFoundError (msg : string) : exn := Raise "FileNotFoundError" msg.
Definition FileExistsError (msg : string) : exn := Raise "FileExistsError" msg.
Definition IsADirectoryError (msg : string) : exn := Raise "IsADirectoryError" msg.
Definition NotADirectoryError (msg : string) : exn := Raise "NotADirectoryError" msg.

(** [raises r c]: the call raised an exception of class [c]. *)
Definition raises {A} (r : exn + A) (c : string) : Prop :=
  match r with inl e => exn_class e = c | inr _ => False end.

(** [returns r]: the call returned normally. *)
Definition returns {A} (r : exn + A) : Prop :=
  match r with inl _ => False | inr _ => True end.

(** ** Decoded audio

    What the code reads of a pydub [AudioSegment]: [frame_rate],
    [frame_width], [channels], its length in milliseconds ([len(audio)]) and
    millisecond slices ([audio[s:e]]).  The decoded signal is kept at the
    granularity the code works at: one list element per millisecond. *)

Record AudioSegment := {
  frame_rate : Z;
  frame_width : Z;
  channels : Z;
  samples : list Z
}.

(** [len(audio)] *)
Definition len (audio : AudioSegment) : Z := Z.of_nat (length (samples audio)).

(** [audio[s:e]] for [0 <= s], [0 <= e]: both ends are clipped to
    [len(audio)]; the slice keeps the segment's properties. *)
Definition slice (audio : AudioSegment) (s e : Z) : AudioSegment :=
  let s' := Z.min s (len audio) in
  let e' := Z.min e (len audio) in
  {| frame_rate := frame_rate audio;
     frame_width := frame_width audio;
     channels := channels audio;
     samples := take (Z.to_nat (e' - s')) (drop (Z.to_nat s') (samples audio)) |}.

(** ** SizeRouter: [AudioTranscriber.__init__] and the test of
    [transcribe_audio] *)

Definition max_file_size : Z := 25 * 1024 * 1024.

Inductive route := Direct | Chunked.

(** [if file_size < self.max_file_size: ... else: ...] *)
Definition size_router (file_size : Z) : route :=
  if file_size <? max_file_size then Direct else Chunked.

(** ** ComputeChunkLength and Split: [split_audio_into_chunks] *)

(** [bitrate = audio.frame_rate * audio.frame_width * 8 * audio.channels].
    The second factor is the attribute the code reads, [frame_width] (in
    pydub the bytes of one frame over all channels). *)
Definition bitrate (audio : AudioSegment) : Z :=
  frame_rate audio * frame_width audio * 8 * channels audio.

(** [chunk_size_bytes = chunk_size_mb * 1024 * 1024] *)
Definition chunk_size_bytes (chunk_size_mb : Z) : Z := chunk_size_mb * 1024 * 1024.

(** [int((chunk_size_bytes * 8 * 1000) / bitrate)].  Python's [/] on integers
    raises [ZeroDivisionError] for a zero divisor and otherwise gives the
    correctly rounded quotient; [int] truncates toward zero.  For a numerator
    below 2^53 (every budget up to 1073741 MiB) that is the truncated integer
    quotient [Z.quot]. *)
Definition chunk_length_ms (audio : AudioSegment) (chunk_size_mb : Z) : exn + Z :=
  if bitrate audio =? 0 then inl (ZeroDivisionError "division by zero")
  else inr (Z.quot (chunk_size_bytes chunk_size_mb * 8 * 1000) (bitrate audio)).

(** [ceil(a / float(b))] for [b <> 0]. *)
Definition ceil_div (a b : Z) : Z := - ((- a) / b).

(** Modelled from the spec: [make_chunks] is imported from pydub
    ([from pydub.utils import make_chunks]) and its body is not part of this
    repository.  Split "partition[s] the decoded audio into an ordered
    sequence of AudioChunk, each of length chunkDurationMs except possibly the
    final chunk, which holds the remainder", and produces "an empty chunk
    sequence" for audio of zero duration.  This is pydub's
    [number_of_chunks = ceil(len(audio_segment) / float(chunk_length))] and
    [[audio_segment[i * chunk_length:(i + 1) * chunk_length]
      for i in range(int(number_of_chunks))]]; the division raises
    [ZeroDivisionError] for a chunk length of zero. *)
Definition make_chunks (audio : AudioSegment) (chunk_length : Z)
  : exn + list AudioSegment :=
  if chunk_length =? 0 then inl (ZeroDivisionError "float division by zero")
  else
    let number_of_chunks := ceil_div (len audio) chunk_length in
    inr (map (fun i : nat =>
                slice audio (Z.of_nat i * chunk_length)
                            ((Z.of_nat i + 1) * chunk_length))
             (seq 0 (Z.to_nat number_of_chunks))).

Definition split_audio_into_chunks (audio : AudioSegment) (chunk_size_mb : Z)
  : exn + list AudioSegment :=
  match chunk_length_ms audio chunk_size_mb with
  | inl e => inl e
  | inr chunk_length => make_chunks audio chunk_length
  end.

(** ** Merge: [" ".join(transcripts)] *)

Fixpoint str_join (sep : string) (items : list string) : string :=
  match items with
  | [] => ""
  | [x] => x
  | x :: rest => x +:+ sep +:+ str_join sep rest
  end.

Definition merge (transcripts : list string) : string := str_join " " transcripts.

(** ** Python string helpers *)

(** The line feed of a Python string. *)
Definition newline : string := String (ascii_of_nat 10) "".

(** [str(n)] for a non-negative integer. *)
Definition str_nat (n : nat) : string := NilZero.string_of_uint (Nat.to_uint n).

Definition str_Z (z : Z) : string := NilZero.string_of_int (Z.to_int z).

(** [f"{file_size/(1024*1024):.2f}"]: [file_size / 2^20] is exact in binary
    floating point for sizes below 2^53, and [.2f] rounds the exact value to
    the nearest hundredth, ties to even. *)
Definition hundredths_mb (file_size : Z) : Z :=
  let q := (file_size * 100) / 1048576 in
  let r := (file_size * 100) mod 1048576 in
  if (524288 <? r) || ((r =? 524288) && Z.odd q) then q + 1 else q.

Definition two_digits (z : Z) : string :=
  if z <? 10 then "0" +:+ str_Z z else str_Z z.

Definition fmt_mb (file_size : Z) : string :=
  let h := hundredths_mb file_size in
  str_Z (h / 100) +:+ "." +:+ two_digits (h mod 100).

(** [s.split(c)] *)
Fixpoint split_on (c : ascii) (s : string) : list string :=
  match s with
  | EmptyString => [""]
  | String a rest =>
      if Ascii.eqb a c then "" :: split_on c rest
      else match split_on c rest with
           | [] => [String a ""]
           | x :: xs => String a x :: xs
           end
  end.

(** [s.startswith(pre)] *)
Fixpoint starts_with (pre s : string) : bool :=
  match pre, s with
  | EmptyString, _ => true
  | String a pre', String b s' => Ascii.eqb a b && starts_with pre' s'
  | String _ _, EmptyString => false
  end.

(** [c in s] *)
Fixpoint has_char (c : ascii) (s : string) : bool :=
  match s with
  | EmptyString => false
  | String a rest => Ascii.eqb a c || has_char c rest
  end.

(** [s.rfind(c)]; [None] stands for Python's -1. *)
Fixpoint rfind (c : ascii) (s : string) : option nat :=
  match s with
  | EmptyString => None
  | String a rest =>
      match rfind c rest with
      | Some i => Some (S i)
      | None => if Ascii.eqb a c then Some 0%nat else None
      end
  end.

(** [s.lower()] on ASCII letters. *)
Definition lower_ascii (a : ascii) : ascii :=
  let n := nat_of_ascii a in
  if ((65 <=? n) && (n <=? 90))%nat then ascii_of_nat (n + 32) else a.

Fixpoint lower (s : string) : string :=
  match s with
  | EmptyString => EmptyString
  | String a rest => String (lower_ascii a) (lower rest)
  end.

(** [s.replace('.', '')] *)
Fixpoint remove_dots (s : string) : string :=
  match s with
  | EmptyString => EmptyString
  | String a rest =>
      if Ascii.eqb a "." then remove_dots rest else String a (remove_dots rest)
  end.

(** ** [pathlib.Path], POSIX flavour

    A path is its root (["" ], ["/"] or ["//"]) and its components; parsing
    drops empty components and ["."]. *)

Record PurePath := { root : string; parts : list string }.

Definition parse_root (s : string) : string :=
  match s with
  | String "/" (String "/" (String "/" _)) => "/"
  | String "/" (String "/" _) => "//"
  | String "/" _ => "/"
  | _ => ""
  end.

Definition is_component (x : string) : Prop := x ≠ "" ∧ x ≠ ".".

Definition Path (s : string) : PurePath :=
  {| root := parse_root s;
     parts := filter is_component (split_on "/" s) |}.

(** A component as parsing leaves it: not empty, not ["."], without separator. *)
Definition good_part (x : string) : Prop := is_component x ∧ has_char "/" x = false.

(** A path as parsing leaves it. *)
Definition normalised (p : PurePath) : Prop :=
  (root p = "" ∨ root p = "/" ∨ root p = "//") ∧ Forall good_part (parts p).

(** [str(p)] *)
Definition path_str (p : PurePath) : string :=
  match root p, parts p with
  | "", [] => "."
  | r, ps => r +:+ str_join "/" ps
  end.

(** [p.name] *)
Definition name (p : PurePath) : string := List.last (parts p) "".

(** [p.parent] *)
Definition parent (p : PurePath) : PurePath :=
  match parts p with
  | [] => p
  | _ => {| root := root p; parts := removelast (parts p) |}
  end.

(** The index [i] of the last dot of the name when [0 < i < len(name) - 1]. *)
Definition suffix_index (nm : string) : option nat :=
  match rfind "." nm with
  | Some i => if ((0 <? i) && (i <? String.length nm - 1))%nat then Some i else None
  | None => None
  end.

(** [p.suffix] *)
Definition suffix (p : PurePath) : string :=
  match suffix_index (name p) with
  | Some i => substring i (String.length (name p) - i) (name p)
  | None => ""
  end.

(** [p.stem] *)
Definition stem (p : PurePath) : string :=
  match suffix_index (name p) with
  | Some i => substring 0 i (name p)
  | None => name p
  end.

(** [p / s]: a rooted right operand replaces the left one. *)
Definition joinpath (p : PurePath) (s : string) : PurePath :=
  let q := Path s in
  if decide (root q = "") then {| root := root p; parts := parts p ++ parts q |}
  else q.

(** ** [get_default_transcript_path] *)

Definition get_default_transcript_path (audio_file_path : string) : string :=
  let audio_path := Path audio_file_path in
  let transcript_name := stem audio_path +:+ "_transcript.txt" in
  path_str (joinpath (parent audio_path) transcript_name).

(** ** The world the transcriber runs in *)

(** A regular file: the size [os.path.getsize] reports and its bytes. *)
Record file := { st_size : Z; content : list Byte.byte }.

Inductive node := Dir | File (f : file).

(** The file system maps path strings to nodes. *)
Abbreviation FS := (gmap string node).

(** The external collaborators.
    - [ffmpeg_installed]: whether the decoding engine is in the environment;
    - [decode fmt f]: what the engine makes of file [f] read as format [fmt];
    - [encode_mp3 a]: the mp3 export of a segment;
    - [whisper n nm f]: the answer of the hosted service to its [n]-th call,
      uploading file [f] under the name [nm];
    - [dir_size]: the size the operating system reports for a directory. *)
Record Env := {
  ffmpeg_installed : bool;
  decode : string -> file -> exn + AudioSegment;
  encode_mp3 : AudioSegment -> exn + file;
  whisper : nat -> string -> file -> exn + string;
  dir_size : Z
}.

(** The state: the file system, the observer's private state [ui], the number
    of calls made to the service so far, and [history], a ghost log of every
    file-system state the run has gone through (newest first). *)
Record world (U : Type) := World {
  fs : FS;
  ui : U;
  api_calls : nat;
  history : list FS
}.
Arguments World {U} _ _ _ _.
Arguments fs {U} _.
Arguments ui {U} _.
Arguments api_calls {U} _.
Arguments history {U} _.

(** ** The state-and-exception monad *)

Definition M (U A : Type) : Type := world U -> (exn + A) * world U.

Global Instance M_ret {U} : MRet (M U) := fun A (a : A) w => (inr a, w).

Definition raise {U A} (e : exn) : M U A := fun w => (inl e, w).

(** Sequencing: a raise of the first computation skips the second. *)
Global Instance M_bind {U} : MBind (M U) :=
  fun A B (k : A -> M U B) (m : M U A) w =>
    match m w with
    | (inl e, w') => (inl e, w')
    | (inr a, w') => k a w'
    end.

(** A pure call that can raise. *)
Definition lift {U A} (r : exn + A) : M U A := fun w => (r, w).

(** [try: body finally: fin].  [fin] runs on every exit of [body]; an
    exception of [fin] replaces the outcome of [body]. *)
Definition try_finally {U A} (body : M U A) (fin : M U unit) : M U A :=
  fun w =>
    let (r, w1) := body w in
    match fin w1 with
    | (inl e, w2) => (inl e, w2)
    | (inr _, w2) => (r, w2)
    end.

(** [try: body except <class c> as e: handler e] *)
Definition try_except {U A} (c : string) (body : M U A) (handler : exn -> M U A)
  : M U A :=
  fun w =>
    match body w with
    | (inl e, w1) => if decide (exn_class e = c) then handler e w1 else (inl e, w1)
    | (inr a, w1) => (inr a, w1)
    end.

Definition get_fs {U} : M U FS := fun w => (inr (fs w), w).

(** Every change of the file system is logged in [history]. *)
Definition put_fs {U} (f : FS) : M U unit :=
  fun w => (inr tt, World f (ui w) (api_calls w) (f :: history w)).

(** ** The progress observer

    A callback receives the status string and acts on its own state; it may
    raise.  [None] is a run without observer. *)
Definition observer (U : Type) : Type := string -> U -> option exn * U.

(** [if progress_callback: progress_callback(msg)] *)
Definition notify {U} (progress_callback : option (observer U)) (msg : string)
  : M U unit :=
  fun w =>
    match progress_callback with
    | None => (inr tt, w)
    | Some cb =>
        let (r, u) := cb msg (ui w) in
        let w' := World (fs w) u (api_calls w) (history w) in
        match r with
        | Some e => (inl e, w')
        | None => (inr tt, w')
        end
    end.

(** ** File-system primitives *)

(** [d / n] for a single component [n]. *)
Definition path_join (d n : string) : string := d +:+ "/" +:+ n.

(** [p] is [d] or lies below it. *)
Definition in_tree (d p : string) : Prop :=
  p = d ∨ starts_with (d +:+ "/") p = true.

Global Instance in_tree_dec d p : Decision (in_tree d p) :=
  or_dec (decide (p = d)) (decide (starts_with (d +:+ "/") p = true)).

Section Transcriber.

Context {U : Type}.
Variable env : Env.

(** [os.path.getsize(path)] *)
Definition get_file_size (file_path : string) : M U Z :=
  f ← get_fs;
  match f !! file_path with
  | Some (File x) => mret (st_size x)
  | Some Dir => mret (dir_size env)
  | None => raise (FileNotFoundError file_path)
  end.

(** [temp_dir.mkdir(exist_ok=True)] *)
Definition mkdir_exist_ok (d : string) : M U unit :=
  f ← get_fs;
  match f !! d with
  | None => put_fs (<[d := Dir]> f)
  | Some Dir => mret tt
  | Some (File _) => raise (FileExistsError d)
  end.

(** [temp_dir.exists()] *)
Definition path_exists (d : string) : M U bool :=
  f ← get_fs;
  mret (bool_decide (is_Some (f !! d))).

(** [temp_file.unlink()] *)
Definition unlink (p : string) : M U unit :=
  f ← get_fs;
  match f !! p with
  | Some (File _) => put_fs (delete p f)
  | Some Dir => raise (IsADirectoryError p)
  | None => raise (FileNotFoundError p)
  end.

(** [shutil.rmtree(d)] *)
Definition rmtree (d : string) : M U unit :=
  f ← get_fs;
  match f !! d with
  | Some Dir => put_fs (filter (fun kv : string * node => ¬ in_tree d kv.1) f)
  | Some (File _) => raise (NotADirectoryError d)
  | None => raise (FileNotFoundError d)
  end.

(** [chunk.export(d / n, format="mp3")] (pydub): the destination is opened
    for writing, which creates it, and then receives the encoded audio; when
    the encoder fails the exception leaves the created file behind, empty. *)
Definition export (chunk : AudioSegment) (d n : string) : M U unit :=
  f ← get_fs;
  match f !! d, f !! path_join d n with
  | Some Dir, Some Dir => raise (IsADirectoryError (path_join d n))
  | Some Dir, _ =>
      match encode_mp3 env chunk with
      | inl e =>
          put_fs (<[path_join d n := File {| st_size := 0; content := [] |}]> f) ;;
          raise e
      | inr x => put_fs (<[path_join d n := File x]> f)
      end
  | Some (File _), _ => raise (NotADirectoryError (path_join d n))
  | None, _ => raise (FileNotFoundError (path_join d n))
  end.

(** Modelled from the spec: [AudioSegment.from_file] is pydub's and not part
    of this repository.  The decode capability "accepts a file path/extension
    and returns a decoded in-memory audio object" and "fails if the underlying
    decoding engine is not installed in the environment"; in Python the
    missing engine surfaces as the [FileNotFoundError] of the failed process
    launch, which is what [load_audio] catches. *)
Definition from_file (file_path format : string) : M U AudioSegment :=
  f ← get_fs;
  match f !! file_path with
  | None => raise (FileNotFoundError file_path)
  | Some Dir => raise (IsADirectoryError file_path)
  | Some (File x) =>
      if ffmpeg_installed env then lift (decode env format x)
      else raise (FileNotFoundError "ffmpeg")
  end.

(** ** [AudioTranscriber] *)

Definition format_map : gmap string string :=
  list_to_map [("mp3", "mp3"); ("wav", "wav"); ("flac", "flac");
               ("m4a", "mp4"); ("ogg", "ogg"); ("wma", "wma"); ("aac", "aac")].

Definition ffmpeg_not_found : exn :=
  FileNotFoundError
    ("FFmpeg not found! Please install FFmpeg:" +:+ newline +:+ newline
     +:+ "Option 1 (Recommended for Anaconda users):" +:+ newline
     +:+ "  conda install -c conda-forge ffmpeg" +:+ newline +:+ newline
     +:+ "Option 2 (Manual installation):" +:+ newline
     +:+ "  Download from: https://ffmpeg.org/download.html").

(** [Path(file_path).suffix.lower().replace('.', '')] *)
Definition file_ext_of (file_path : string) : string :=
  remove_dots (lower (suffix (Path file_path))).

(** [format_map.get(file_ext, file_ext)] *)
Definition audio_format_of (file_ext : string) : string :=
  default file_ext (format_map !! file_ext).

Definition load_audio (file_path : string) : M U (AudioSegment * string) :=
  let file_ext := file_ext_of file_path in
  let audio_format := audio_format_of file_ext in
  try_except "FileNotFoundError"
    (audio ← from_file file_path audio_format;
     mret (audio, file_ext))
    (fun _ => raise ffmpeg_not_found).

(** [transcribe_file]: open the file and make one call to the service. *)
Definition transcribe_file (file_path : string) : M U string :=
  fun w =>
    match fs w !! file_path with
    | None => (inl (FileNotFoundError file_path), w)
    | Some Dir => (inl (IsADirectoryError file_path), w)
    | Some (File x) =>
        (whisper env (api_calls w) file_path x,
         World (fs w) (ui w) (S (api_calls w)) (history w))
    end.

Definition temp_dir : string := "temp_audio_chunks".

(** [f"chunk_{i}.mp3"] *)
Definition chunk_name (i : nat) : string := "chunk_" +:+ str_nat i +:+ ".mp3".

(** The body of [for i, chunk in enumerate(chunks)], from index [i] on;
    [total] is [len(chunks)] and [transcripts] the list built so far. *)
Fixpoint chunk_loop (progress_callback : option (observer U)) (total i : nat)
    (chunks : list AudioSegment) (transcripts : list string)
  : M U (list string) :=
  match chunks with
  | [] => mret transcripts
  | chunk :: rest =>
      notify progress_callback
        ("Processing chunk " +:+ str_nat (i + 1) +:+ "/" +:+ str_nat total +:+ "...") ;;
      export chunk temp_dir (chunk_name i) ;;
      chunk_transcript ← transcribe_file (path_join temp_dir (chunk_name i));
      unlink (path_join temp_dir (chunk_name i)) ;;
      notify progress_callback
        ("Chunk " +:+ str_nat (i + 1) +:+ "/" +:+ str_nat total +:+ " completed") ;;
      chunk_loop progress_callback total (S i) rest (transcripts ++ [chunk_transcript])
  end.

Definition transcribe_large_file (audio_file_path : string)
    (progress_callback : option (observer U)) : M U string :=
  notify progress_callback "Loading audio file..." ;;
  loaded ← load_audio audio_file_path;
  notify progress_callback "Splitting audio into chunks..." ;;
  chunks ← lift (split_audio_into_chunks (fst loaded) 20);
  notify progress_callback
    ("Audio split into " +:+ str_nat (length chunks) +:+ " chunks") ;;
  mkdir_exist_ok temp_dir ;;
  try_finally
    (transcripts ← chunk_loop progress_callback (length chunks) 0 chunks [];
     notify progress_callback "Merging transcripts..." ;;
     mret (merge transcripts))
    (b ← path_exists temp_dir;
     if b : bool then rmtree temp_dir else mret tt).

Definition transcribe_audio (audio_file_path : string)
    (progress_callback : option (observer U)) : M U string :=
  notify progress_callback "Checking file size..." ;;
  file_size ← get_file_size audio_file_path;
  match size_router file_size with
  | Direct =>
      notify progress_callback
        ("File size: " +:+ fmt_mb file_size +:+ " MB - Transcribing directly...") ;;
      transcribe_file audio_file_path
  | Chunked =>
      notify progress_callback
        ("File size: " +:+ fmt_mb file_size +:+ " MB - Splitting into chunks...") ;;
      transcribe_large_file audio_file_path progress_callback
  end.

End Transcriber.

(** ** Sample inputs *)

(** Two and a half minutes of CD-quality stereo. *)
Definition talk : AudioSegment :=
  {| frame_rate := 44100; frame_width := 4; channels := 2;
     samples := replicate (Z.to_nat 150000) 0 |}.

(** A recording of no duration. *)
Definition hush : AudioSegment :=
  {| frame_rate := 44100; frame_width := 4; channels := 2; samples := [] |}.



(** A 60 MiB upload and a 1 MiB one. *)
Definition upload : file := {| st_size := 62914560; content := [] |}.
Definition note : file := {| st_size := 1048576; content := [] |}.

(** An environment in which everything works: the engine decodes every file
    to [a] and the service answers its [n]-th call with ["part<n>"]. *)
Definition studio (a : AudioSegment) : Env :=
  {| ffmpeg_installed := true;
     decode := fun _ _ => inr a;
     encode_mp3 := fun c => inr {| st_size := len c; content := [] |};
     whisper := fun n _ _ => inr ("part" +:+ str_nat n);
     dir_size := 4096 |}.

(** The same, but the second call to the service fails. *)
Definition flaky (a : AudioSegment) : Env :=
  {| ffmpeg_installed := true;
     decode := fun _ _ => inr a;
     encode_mp3 := fun c => inr {| st_size := len c; content := [] |};
     whisper := fun n _ _ =>
       if (n =? 1)%nat then inl (Raise "APIError" "rate limit reached")
       else inr ("part" +:+ str_nat n);
     dir_size := 4096 |}.

(** No decoding engine. *)
Definition no_engine : Env :=
  {| ffmpeg_installed := false;
     decode := fun _ _ => inr talk;
     encode_mp3 := fun c => inr {| st_size := len c; content := [] |};
     whisper := fun n _ _ => inr ("part" +:+ str_nat n);
     dir_size := 4096 |}.


(** A directory holding the upload and one holding the small file. *)
Definition desk : world unit :=
  World (<["talk.mp3" := File upload]> ∅) tt 0 [].

Definition drawer : world unit :=
  World (<["note.mp3" := File note]> ∅) tt 0 [].

(** An observer that keeps the strings, and one that raises. *)
Definition logger : observer (list string) := fun msg u => (None, u ++ [msg]).


Definition logdesk : world (list string) :=
  World (<["talk.mp3" := File upload]> ∅) [] 0 [].

(** ** Vocabulary of the properties *)

(** The entries below the working directory. *)
Definition below_temp_dir (f : FS) : FS :=
  filter (fun kv : string * node => starts_with (temp_dir +:+ "/") kv.1 = true) f.

(** Neither the working directory nor anything below it exists. *)
Definition no_temp_tree (f : FS) : Prop :=
  f !! temp_dir = None ∧ below_temp_dir f = ∅.


(** An observer that returns normally on every status string. *)
Definition quiet {U} (progress_callback : option (observer U)) : Prop :=
  match progress_callback with
  | None => True
  | Some cb => ∀ (msg : string) (u : U), (cb msg u).1 = None
  end.

(** Two worlds that differ at most in the observer's state. *)
Definition same_core {U1 U2} (w1 : world U1) (w2 : world U2) : Prop :=
  fs w1 = fs w2 ∧ api_calls w1 = api_calls w2 ∧ history w1 = history w2.

(** Two file systems that agree on every path outside the working tree. *)
Definition same_outside (f g : FS) : Prop :=
  ∀ p : string, ¬ in_tree temp_dir p → f !! p = g !! p.

(** Two computations, possibly over different observer states, that from
    worlds with the same core give the same outcome and worlds with the same
    core. *)
Definition agree {U1 U2 A} (m1 : M U1 A) (m2 : M U2 A) : Prop :=
  ∀ (w1 : world U1) (w2 : world U2),
    same_core w1 w2 →
    (m1 w1).1 = (m2 w2).1 ∧ same_core (m1 w1).2 (m2 w2).2.

(** * Properties *)

(** ** Sample evaluations *)

Example default_path_song :
  get_default_transcript_path "/x/song.mp3" = "/x/song_transcript.txt".
Proof. reflexivity. Qed.

Example default_path_samples :
  map get_default_transcript_path
      ["song.mp3"; "/x//a.tar.gz"; "./.bashrc"; "/"; ""; "a/b/"; "//x/y.wav"; "clip."]
  = ["song_transcript.txt"; "/x/a.tar_transcript.txt"; ".bashrc_transcript.txt";
     "/_transcript.txt"; "_transcript.txt"; "a/b_transcript.txt";
     "//x/y_transcript.txt"; "clip._transcript.txt"].
Proof. reflexivity. Qed.

Example fmt_mb_samples :
  map fmt_mb [0; 131072; 26214400; 62914560; 1234567]
  = ["0.00"; "0.12"; "25.00"; "60.00"; "1.18"].
Proof. reflexivity. Qed.

(** ** SizeRouter *)

Lemma size_router_spec (s : Z) :
  size_router s = if decide (s < 26214400) then Direct else Chunked.
Proof.
  unfold size_router, max_file_size.
  destruct (Z.ltb_spec s (25 * 1024 * 1024)); case_decide; (done || lia).
Qed.

(** C1.  The threshold is 25 MiB; for every byte size [s] the routing decision
    is [Direct] if and only if [s] is strictly below it, so a file of exactly
    the threshold size is [Chunked]; and [transcribe_audio] on a file of size
    [s] is the single transcription call on the original file when the
    decision is [Direct] and the chunked pipeline otherwise. *)
Theorem size_router_direct_iff_below_threshold :
  max_file_size = 25 * 1024 * 1024
  ∧ (∀ s : Z, size_router s = Direct ↔ s < max_file_size)
  ∧ (∀ s : Z, size_router s = Chunked ↔ max_file_size ≤ s)
  ∧ size_router max_file_size = Chunked
  ∧ (∀ (U : Type) (env : Env) (path : string) (f : file) (fs0 : FS) (u : U)
       (n : nat) (h : list FS),
        let w := World (<[path := File f]> fs0) u n h in
        transcribe_audio env path None w
        = match size_router (st_size f) with
          | Direct => transcribe_file env path w
          | Chunked => transcribe_large_file env path None w
          end).
Proof.
  split; [reflexivity |].
  split.
  { intros s. rewrite size_router_spec. unfold max_file_size.
    case_decide; split; (done || lia). }
  split.
  { intros s. rewrite size_router_spec. unfold max_file_size.
    case_decide; split; (done || lia). }
  split; [reflexivity |].
  intros U env path f fs0 u n h w.
  unfold transcribe_audio, get_file_size, mbind, M_bind, notify, get_fs; simpl.
  rewrite lookup_insert_eq. simpl.
  destruct (size_router (st_size f)); reflexivity.
Qed.

(** ** ComputeChunkLength *)


Lemma chunk_length_ms_nonzero (a : AudioSegment) (b : Z) :
  bitrate a ≠ 0 →
  chunk_length_ms a b = inr (Z.quot (chunk_size_bytes b * 8 * 1000) (bitrate a)).
Proof.
  intros H. unfold chunk_length_ms.
  destruct (Z.eqb_spec (bitrate a) 0); [contradiction | reflexivity].
Qed.



(** ** Split *)

Lemma slice_samples (a : AudioSegment) (s e : Z) :
  0 ≤ s → s ≤ e →
  samples (slice a s e)
  = take (Z.to_nat e - Z.to_nat s) (drop (Z.to_nat s) (samples a)).
Proof.
  intros Hs He. unfold slice, len; simpl.
  set (l := samples a).
  destruct (Z_le_gt_dec (Z.of_nat (length l)) s) as [Hout | Hin].
  - rewrite (Z.min_r s) by lia. rewrite (Z.min_r e) by lia.
    rewrite !drop_ge by lia. by rewrite !take_nil.
  - rewrite (Z.min_l s) by lia.
    destruct (Z_le_gt_dec e (Z.of_nat (length l))) as [Hin' | Hout'].
    + rewrite (Z.min_l e) by lia. f_equal. lia.
    + rewrite (Z.min_r e) by lia.
      rewrite !take_ge; [done | rewrite length_drop; lia | rewrite length_drop; lia].
Qed.

Lemma slice_len (a : AudioSegment) (s e : Z) :
  0 ≤ s → s ≤ e →
  len (slice a s e) = Z.min (e - s) (Z.max 0 (len a - s)).
Proof.
  intros Hs He. unfold len at 1. rewrite slice_samples by done.
  rewrite length_take, length_drop. unfold len. lia.
Qed.

(** The first [n] chunks of length [k], put end to end, are the first
    [n * k] milliseconds. *)
Lemma concat_chunks_take (l : list Z) (k n : nat) :
  concat (map (fun i : nat => take k (drop (i * k) l)) (seq 0 n)) = take (n * k) l.
Proof.
  induction n as [| n IH].
  - simpl. by rewrite take_0.
  - rewrite seq_S, map_app, concat_app, IH. simpl.
    rewrite app_nil_r, take_take_drop. f_equal. lia.
Qed.

Lemma total_len_concat (cs : list AudioSegment) :
  foldr Z.add 0 (map len cs) = Z.of_nat (length (concat (map samples cs))).
Proof.
  induction cs as [| c cs IH]; simpl; [done |].
  rewrite IH, length_app. unfold len. lia.
Qed.

(** The number of chunks [n] of a non-empty audio: [(n-1) * L < D <= n * L]. *)
Lemma ceil_div_bounds (D L : Z) :
  0 < D → 0 < L →
  0 < ceil_div D L ∧ (ceil_div D L - 1) * L < D ∧ D ≤ ceil_div D L * L.
Proof.
  intros HD HL. unfold ceil_div.
  pose proof (Z.div_mod (- D) L ltac:(lia)) as Hdm.
  pose proof (Z.mod_pos_bound (- D) L HL) as Hb.
  nia.
Qed.

Lemma make_chunks_samples (a : AudioSegment) (L : Z) (i : nat) :
  0 < L →
  samples (slice a (Z.of_nat i * L) ((Z.of_nat i + 1) * L))
  = take (Z.to_nat L) (drop (i * Z.to_nat L) (samples a)).
Proof.
  intros HL. rewrite slice_samples by nia.
  f_equal; [nia | f_equal; nia].
Qed.

(** C4.  For audio of positive duration and a computed chunk duration
    [L > 0], splitting returns a non-empty sequence [init ++ [last]] in which
    every chunk of [init] lasts exactly [L], the last one lasts more than 0
    and at most [L], the durations sum to the duration of the audio, and the
    chunks put end to end in order are the audio itself. *)
Theorem split_covers_audio (a : AudioSegment) (b L : Z) :
  0 < len a → chunk_length_ms a b = inr L → 0 < L →
  ∃ (init : list AudioSegment) (last : AudioSegment),
    split_audio_into_chunks a b = inr (init ++ [last])
    ∧ Forall (fun c => len c = L) init
    ∧ 0 < len last ∧ len last ≤ L
    ∧ foldr Z.add 0 (map len (init ++ [last])) = len a
    ∧ concat (map samples (init ++ [last])) = samples a.
Proof.
  intros HD HcL HL.
  destruct (ceil_div_bounds (len a) L HD HL) as (Hn & Hlo & Hhi).
  set (f := fun i : nat => slice a (Z.of_nat i * L) ((Z.of_nat i + 1) * L)).
  set (n := Z.to_nat (ceil_div (len a) L)) in *.
  assert (Hn' : n = S (Nat.pred n)) by lia.
  exists (map f (seq 0 (Nat.pred n))), (f (Nat.pred n)).
  assert (Hsplit : split_audio_into_chunks a b
                   = inr (map f (seq 0 (Nat.pred n)) ++ [f (Nat.pred n)])).
  { unfold split_audio_into_chunks. rewrite HcL. unfold make_chunks.
    destruct (Z.eqb_spec L 0); [lia |]. f_equal. fold f. fold n.
    rewrite Hn' at 1. rewrite seq_S, map_app. reflexivity. }
  assert (Hcat : concat (map samples (map f (seq 0 (Nat.pred n)) ++ [f (Nat.pred n)]))
                 = samples a).
  { rewrite <- (map_app f _ [Nat.pred n]). change [Nat.pred n] with (seq (0 + Nat.pred n) 1).
    rewrite <- seq_app. replace (Nat.pred n + 1)%nat with n by lia.
    rewrite map_map.
    rewrite (map_ext _ (fun i : nat => take (Z.to_nat L) (drop (i * Z.to_nat L) (samples a)))).
    2:{ intros i. unfold f. by apply make_chunks_samples. }
    rewrite concat_chunks_take. apply take_ge. unfold len in *. nia. }
  split; [exact Hsplit |].
  split.
  { apply Forall_forall. intros c Hc. apply list_elem_of_In, in_map_iff in Hc as (i & <- & Hi).
    apply in_seq in Hi. unfold f. rewrite slice_len by nia. nia. }
  split; [unfold f; rewrite slice_len by nia; nia |].
  split; [unfold f; rewrite slice_len by nia; nia |].
  split; [| exact Hcat].
  rewrite total_len_concat, Hcat. reflexivity.
Qed.

(** ** Running monadic code *)

Lemma bind_run {U A B} (m : M U A) (k : A → M U B) (w : world U) :
  (m ≫= k) w
  = match m w with
    | (inl e, w') => (inl e, w')
    | (inr a, w') => k a w'
    end.
Proof. reflexivity. Qed.

Lemma bind_inr_inv {U A B} (m : M U A) (k : A → M U B) (w w' : world U) (b : B) :
  (m ≫= k) w = (inr b, w') →
  ∃ (a : A) (w1 : world U), m w = (inr a, w1) ∧ k a w1 = (inr b, w').
Proof.
  rewrite bind_run. destruct (m w) as [[e | a] w1]; [discriminate |].
  intros H. by exists a, w1.
Qed.

(** A notification touches nothing but the observer's own state. *)
Lemma notify_frame {U} (cb : option (observer U)) (msg : string) (w : world U) :
  fs (notify cb msg w).2 = fs w
  ∧ api_calls (notify cb msg w).2 = api_calls w
  ∧ history (notify cb msg w).2 = history w.
Proof.
  unfold notify. destruct cb as [f |]; [| done].
  destruct (f msg (ui w)) as [[e |] u]; done.
Qed.

Lemma notify_inr_inv {U} (cb : option (observer U)) (msg : string)
    (w w' : world U) (x : unit) :
  notify cb msg w = (inr x, w') →
  fs w' = fs w ∧ api_calls w' = api_calls w ∧ history w' = history w.
Proof.
  intros H. pose proof (notify_frame cb msg w) as Hf. by rewrite H in Hf.
Qed.

Section Steps.

Context {U : Type}.
Variable env : Env.
Implicit Types w : world U.

Lemma export_inr_inv chunk d n w w' (x : unit) :
  export env chunk d n w = (inr x, w') →
  ∃ f : file,
    encode_mp3 env chunk = inr f
    ∧ fs w !! d = Some Dir
    ∧ fs w' = <[path_join d n := File f]> (fs w)
    ∧ api_calls w' = api_calls w
    ∧ history w' = fs w' :: history w.
Proof.
  unfold export. rewrite bind_run. simpl.
  destruct (fs w !! d) as [[| fd] |] eqn:Hd; [| discriminate | discriminate].
  destruct (encode_mp3 env chunk) as [e | f] eqn:He.
  - destruct (fs w !! path_join d n) as [[| f'] |]; discriminate.
  - intros H. exists f.
    destruct (fs w !! path_join d n) as [[| f'] |]; [discriminate | |];
      inversion H; subst; done.
Qed.

Lemma transcribe_file_inr_inv p w w' (t : string) :
  transcribe_file env p w = (inr t, w') →
  ∃ f : file,
    fs w !! p = Some (File f)
    ∧ whisper env (api_calls w) p f = inr t
    ∧ fs w' = fs w
    ∧ api_calls w' = S (api_calls w)
    ∧ history w' = history w.
Proof.
  unfold transcribe_file.
  destruct (fs w !! p) as [[| f] |]; [discriminate | | discriminate].
  intros H. inversion H; subst. by exists f.
Qed.

Lemma unlink_inr_inv p w w' (x : unit) :
  unlink p w = (inr x, w') →
  fs w' = delete p (fs w)
  ∧ api_calls w' = api_calls w
  ∧ history w' = fs w' :: history w.
Proof.
  unfold unlink. rewrite bind_run. simpl.
  destruct (fs w !! p) as [[| f] |]; [discriminate | | discriminate].
  intros H. inversion H; subst. done.
Qed.

(** What one successful pass of the loop body does. *)
Lemma chunk_loop_step cb total i chunk rest acc w w' ts :
  chunk_loop env cb total i (chunk :: rest) acc w = (inr ts, w') →
  ∃ (f : file) (t : string) (w1 : world U),
    encode_mp3 env chunk = inr f
    ∧ whisper env (api_calls w) (path_join temp_dir (chunk_name i)) f = inr t
    ∧ fs w !! temp_dir = Some Dir
    ∧ fs w1 = delete (path_join temp_dir (chunk_name i)) (fs w)
    ∧ api_calls w1 = S (api_calls w)
    ∧ history w1
      = fs w1 :: <[path_join temp_dir (chunk_name i) := File f]> (fs w) :: history w
    ∧ chunk_loop env cb total (S i) rest (acc ++ [t]) w1 = (inr ts, w').
Proof.
  simpl. intros H.
  apply bind_inr_inv in H as (x0 & wa & Hn1 & H).
  apply bind_inr_inv in H as (x1 & wb & Hex & H).
  apply bind_inr_inv in H as (t & wc & Htr & H).
  apply bind_inr_inv in H as (x2 & wd & Hun & H).
  apply bind_inr_inv in H as (x3 & we & Hn2 & H).
  apply notify_inr_inv in Hn1 as (Hf1 & Hc1 & Hh1).
  apply export_inr_inv in Hex as (f & Henc & Hdir & Hf2 & Hc2 & Hh2).
  apply transcribe_file_inr_inv in Htr as (f' & Hlk & Hwh & Hf3 & Hc3 & Hh3).
  apply unlink_inr_inv in Hun as (Hf4 & Hc4 & Hh4).
  apply notify_inr_inv in Hn2 as (Hf5 & Hc5 & Hh5).
  rewrite Hf2, lookup_insert_eq in Hlk. inversion Hlk; subst f'.
  exists f, t, we. split; [done |].
  split; [by rewrite <- Hc1, <- Hc2 |].
  split; [by rewrite <- Hf1 |].
  split; [by rewrite Hf5, Hf4, Hf3, Hf2, Hf1, delete_insert_eq |].
  split; [by rewrite Hc5, Hc4, Hc3, Hc2, Hc1 |].
  split; [| done].
  rewrite Hh5, Hh4, Hh3, Hh2, Hh1, Hf5. by rewrite Hf2, Hf1.
Qed.

(** On success the loop appends, in chunk order, the answer of the service to
    each chunk's export: chunk [j] is call number [api_calls w + j] and is
    uploaded as [chunk_(i+j).mp3]. *)
Lemma chunk_loop_transcripts cb total chunks :
  ∀ i acc w w' ts,
    chunk_loop env cb total i chunks acc w = (inr ts, w') →
    ∃ texts : list string,
      ts = acc ++ texts
      ∧ length texts = length chunks
      ∧ api_calls w' = (api_calls w + length chunks)%nat
      ∧ ∀ (j : nat) (c : AudioSegment),
          chunks !! j = Some c →
          ∃ (f : file) (t : string),
            encode_mp3 env c = inr f
            ∧ whisper env (api_calls w + j)
                (path_join temp_dir (chunk_name (i + j))) f = inr t
            ∧ texts !! j = Some t.
Proof.
  induction chunks as [| chunk rest IH]; intros i acc w w' ts H.
  - simpl in H. inversion H; subst. exists []. rewrite app_nil_r.
    repeat split; [simpl; lia |]. intros j c Hj. by rewrite lookup_nil in Hj.
  - apply chunk_loop_step in H as (f & t & w1 & Henc & Hwh & _ & _ & Hc & _ & H).
    apply IH in H as (texts & -> & Hlen & Hcalls & Hall).
    exists (t :: texts). rewrite <- app_assoc. split; [done |].
    split; [simpl; lia |]. split; [simpl; lia |].
    intros [| j] c Hj; simpl in Hj.
    + inversion Hj; subst c. exists f, t. by rewrite !Nat.add_0_r.
    + destruct (Hall j c Hj) as (f' & t' & He' & Hw' & Ht').
      exists f', t'. split; [done |]. split; [| done].
      rewrite Hc in Hw'.
      by replace (api_calls w + S j)%nat with (S (api_calls w) + j)%nat by lia;
         replace (i + S j)%nat with (S i + j)%nat by lia.
Qed.

End Steps.

(** ** Merge *)

Lemma merge_concat (ts : list string) : merge ts = String.concat " " ts.
Proof.
  unfold merge. induction ts as [| t [| t' ts] IH]; [done | done |].
  change (str_join " " (t :: t' :: ts)) with (t +:+ " " +:+ str_join " " (t' :: ts)).
  by rewrite IH.
Qed.

Lemma try_finally_inr_inv {U A} (body : M U A) (fin : M U unit) (w w' : world U) (a : A) :
  try_finally body fin w = (inr a, w') →
  ∃ (w1 : world U) (x : unit), body w = (inr a, w1) ∧ fin w1 = (inr x, w').
Proof.
  unfold try_finally. destruct (body w) as [r w1].
  destruct (fin w1) as [[e | x] w2] eqn:Hfin; [discriminate |].
  intros H. inversion H; subst. by exists w1, x.
Qed.

Lemma load_audio_inr_inv {U} (env : Env) (path : string) (w w' : world U)
    (audio : AudioSegment) (ext : string) :
  load_audio env path w = (inr (audio, ext), w') →
  ∃ x : file,
    fs w !! path = Some (File x)
    ∧ ffmpeg_installed env = true
    ∧ decode env (audio_format_of (file_ext_of path)) x = inr audio
    ∧ ext = file_ext_of path
    ∧ w' = w.
Proof.
  unfold load_audio, try_except, from_file. rewrite !bind_run. simpl.
  destruct (fs w !! path) as [[| x] |] eqn:Hlk; simpl;
    [try case_decide; discriminate | | try case_decide; discriminate].
  destruct (ffmpeg_installed env) eqn:Hff; simpl;
    [| try case_decide; discriminate].
  unfold lift.
  destruct (decode env (audio_format_of (file_ext_of path)) x) as [e | a] eqn:Hdec;
    [try case_decide; discriminate |].
  intros H. inversion H; subst. by exists x.
Qed.

(** C5.  Merge is the join of the per-chunk strings with one space between
    neighbours, in list order; a single string is returned unchanged;
    [["a"; "b"; "c"]] gives ["a b c"]; and the list the chunked pipeline
    merges is, position by position, the answer of the service to the export
    of the chunk with that index, the calls being made in chunk order. *)
Theorem merge_is_space_join_in_chunk_order :
  (∀ ts : list string, merge ts = String.concat " " ts)
  ∧ (∀ t : string, merge [t] = t)
  ∧ (∀ (t : string) (ts : list string),
        ts ≠ [] → merge (t :: ts) = t +:+ " " +:+ merge ts)
  ∧ merge ["a"; "b"; "c"] = "a b c"
  ∧ (∀ (U : Type) (env : Env) (path : string) (cb : option (observer U))
       (w w' : world U) (t : string),
        transcribe_large_file env path cb w = (inr t, w') →
        ∃ (x : file) (audio : AudioSegment) (chunks : list AudioSegment)
          (texts : list string),
          fs w !! path = Some (File x)
          ∧ decode env (audio_format_of (file_ext_of path)) x = inr audio
          ∧ split_audio_into_chunks audio 20 = inr chunks
          ∧ length texts = length chunks
          ∧ (∀ (j : nat) (c : AudioSegment),
                chunks !! j = Some c →
                ∃ (f : file) (tj : string),
                  encode_mp3 env c = inr f
                  ∧ whisper env (api_calls w + j)
                      (path_join temp_dir (chunk_name j)) f = inr tj
                  ∧ texts !! j = Some tj)
          ∧ t = merge texts).
Proof.
  split; [exact merge_concat |].
  split; [reflexivity |].
  split; [intros t [| t' ts] Hne; [done | reflexivity] |].
  split; [reflexivity |].
  intros U env path cb w w' t H. unfold transcribe_large_file in H.
  apply bind_inr_inv in H as (x0 & wa & Hn1 & H).
  apply bind_inr_inv in H as ([audio ext] & wb & Hload & H).
  apply bind_inr_inv in H as (x1 & wc & Hn2 & H).
  apply bind_inr_inv in H as (chunks & wd & Hsplit & H).
  apply bind_inr_inv in H as (x2 & we & Hn3 & H).
  apply bind_inr_inv in H as (x3 & wf & Hmk & H).
  apply try_finally_inr_inv in H as (wg & x4 & Hbody & _).
  apply bind_inr_inv in Hbody as (ts & wh & Hloop & Hbody).
  apply bind_inr_inv in Hbody as (x5 & wi & Hn4 & Hret).
  apply notify_inr_inv in Hn1 as (Hf1 & Hc1 & _).
  apply load_audio_inr_inv in Hload as (x & Hlk & _ & Hdec & _ & ->).
  apply notify_inr_inv in Hn2 as (Hf2 & Hc2 & _).
  unfold lift in Hsplit. inversion Hsplit; subst wd. clear Hsplit.
  apply notify_inr_inv in Hn3 as (Hf3 & Hc3 & _).
  assert (Hc4 : api_calls wf = api_calls we).
  { unfold mkdir_exist_ok in Hmk. rewrite bind_run in Hmk. simpl in Hmk.
    destruct (fs we !! temp_dir) as [[| f'] |]; inversion Hmk; subst; done. }
  apply chunk_loop_transcripts in Hloop as (texts & -> & Hlen & _ & Hall).
  exists x, audio, chunks, texts.
  split; [by rewrite <- Hf1 |]. split; [done |]. split; [done |]. split; [done |].
  split; [| by inversion Hret].
  intros j c Hj. destruct (Hall j c Hj) as (f & tj & He & Hw & Ht).
  exists f, tj. split; [done |]. split; [| done].
  by rewrite Hc4, Hc3, Hc2, Hc1 in Hw.
Qed.

(** ** Paths *)

Lemma split_on_no_char (c : ascii) (s : string) :
  Forall (fun x => has_char c x = false) (split_on c s).
Proof.
  induction s as [| a rest IH]; simpl; [by repeat constructor |].
  destruct (Ascii.eqb a c) eqn:Hac; [by constructor |].
  destruct (split_on c rest) as [| x xs];
    [constructor; [simpl; by rewrite Hac | constructor] |].
  inversion IH; subst. constructor; [| done]. simpl. by rewrite Hac.
Qed.

Lemma split_on_id (c : ascii) (s : string) :
  has_char c s = false → split_on c s = [s].
Proof.
  induction s as [| a rest IH]; simpl; [done |].
  intros [Hac Hrest]%orb_false_elim. by rewrite Hac, (IH Hrest).
Qed.

Lemma split_on_app (c : ascii) (x rest : string) :
  has_char c x = false →
  split_on c (x +:+ String c rest) = x :: split_on c rest.
Proof.
  induction x as [| a x IH]; simpl.
  - intros _. by rewrite Ascii.eqb_refl.
  - intros [Hac Hx]%orb_false_elim. by rewrite Hac, (IH Hx).
Qed.

Lemma split_on_join (c : ascii) (ps : list string) :
  Forall (fun x => has_char c x = false) ps → ps ≠ [] →
  split_on c (str_join (String c "") ps) = ps.
Proof.
  induction ps as [| p [| p' ps] IH]; intros Hall Hne; [done | |].
  - simpl. apply split_on_id. by inversion Hall.
  - change (str_join (String c "") (p :: p' :: ps))
      with (p +:+ String c "" +:+ str_join (String c "") (p' :: ps)).
    inversion Hall; subst.
    change (String c "" +:+ str_join (String c "") (p' :: ps))
      with (String c (str_join (String c "") (p' :: ps))).
    rewrite split_on_app by done. f_equal. by apply IH.
Qed.

Lemma filter_all {A} (P : A → Prop) `{!∀ x, Decision (P x)} (l : list A) :
  Forall P l → filter P l = l.
Proof.
  induction 1 as [| x l Hx _ IH]; [done |]. by rewrite filter_cons_True, IH.
Qed.

Lemma parse_root_cases (s : string) :
  parse_root s = "" ∨ parse_root s = "/" ∨ parse_root s = "//".
Proof.
  unfold parse_root.
  repeat match goal with
         | |- context [match ?x with _ => _ end] => destruct x
         end; auto.
Qed.

Lemma Path_normalised (s : string) : normalised (Path s).
Proof.
  split; [apply parse_root_cases |]. simpl.
  apply Forall_forall. intros x [Hx Hin]%list_elem_of_filter. split; [done |].
  pose proof (split_on_no_char "/" s) as Hall.
  by eapply Forall_forall in Hall.
Qed.

(** The join of good components is empty or starts with a non-separator. *)
Lemma join_head (ps : list string) :
  Forall good_part ps →
  (ps = [] ∧ str_join "/" ps = "")
  ∨ ∃ (a : ascii) (r : string), str_join "/" ps = String a r ∧ a ≠ "/"%char.
Proof.
  intros Hall. destruct ps as [| p ps]; [by left | right].
  inversion Hall as [| ? ? [[Hne _] Hns] _]; subst.
  destruct p as [| a p]; [done |].
  simpl in Hns. apply orb_false_elim in Hns as [Ha _].
  apply Ascii.eqb_neq in Ha.
  destruct ps as [| p' ps]; [by exists a, p |].
  by exists a, (p +:+ "/" +:+ str_join "/" (p' :: ps)).
Qed.

Lemma parts_of_join (ps : list string) :
  Forall good_part ps →
  filter is_component (split_on "/" (str_join "/" ps)) = ps.
Proof.
  intros Hall. destruct (decide (ps = [])) as [-> | Hne]; [done |].
  rewrite split_on_join; [| | done].
  - apply filter_all. eapply Forall_impl; [exact Hall |]. by intros x [].
  - eapply Forall_impl; [exact Hall |]. by intros x [].
Qed.

(** Printing a normalised path and parsing it again gives it back. *)
Lemma Path_path_str (p : PurePath) : normalised p → Path (path_str p) = p.
Proof.
  destruct p as [r ps]. intros [Hr Hall]; cbn [root parts] in *.
  pose proof (parts_of_join ps Hall) as Hparts.
  destruct (join_head ps Hall) as [[-> Hj] | (a & s & Hj & Ha)].
  - destruct Hr as [-> | [-> | ->]]; reflexivity.
  - assert (Hroot : ∀ t, parse_root (String a t) = "").
    { intros t. unfold parse_root.
      destruct a as [[] [] [] [] [] [] [] []]; try reflexivity. done. }
    assert (Hroot1 : ∀ t, parse_root (String "/" (String a t)) = "/").
    { intros t. unfold parse_root.
      destruct a as [[] [] [] [] [] [] [] []]; try reflexivity. done. }
    assert (Hroot2 : ∀ t, parse_root (String "/" (String "/" (String a t))) = "//").
    { intros t. unfold parse_root.
      destruct a as [[] [] [] [] [] [] [] []]; try reflexivity. done. }
    destruct Hr as [-> | [-> | ->]].
    + destruct ps as [| p0 ps0]; [discriminate |].
      change (path_str {| root := ""; parts := p0 :: ps0 |})
        with (str_join "/" (p0 :: ps0)).
      unfold Path. rewrite Hparts. f_equal. rewrite Hj. apply Hroot.
    + assert (Hstr : path_str {| root := "/"; parts := ps |}
                     = String "/" (str_join "/" ps)) by (by destruct ps).
      rewrite Hstr. unfold Path. f_equal.
      * rewrite Hj. apply Hroot1.
      * change (split_on "/" (String "/" (str_join "/" ps)))
          with ("" :: split_on "/" (str_join "/" ps)).
        rewrite filter_cons_False by (intros []; done). exact Hparts.
    + assert (Hstr : path_str {| root := "//"; parts := ps |}
                     = String "/" (String "/" (str_join "/" ps))) by (by destruct ps).
      rewrite Hstr. unfold Path. f_equal.
      * rewrite Hj. apply Hroot2.
      * change (split_on "/" (String "/" (String "/" (str_join "/" ps))))
          with ("" :: "" :: split_on "/" (str_join "/" ps)).
        rewrite !filter_cons_False by (intros []; done). exact Hparts.
Qed.

Lemma has_char_substring (c : ascii) (s : string) :
  has_char c s = false → ∀ n m : nat, has_char c (substring n m s) = false.
Proof.
  induction s as [| a s IH]; intros Hs n m.
  - by destruct n, m.
  - simpl in Hs. apply orb_false_elim in Hs as [Ha Hs].
    destruct n as [| n]; [destruct m as [| m]; [done |] |]; simpl.
    + by rewrite Ha, IH.
    + by apply IH.
Qed.

Lemma has_char_append (c : ascii) (x y : string) :
  has_char c (x +:+ y) = has_char c x || has_char c y.
Proof.
  induction x as [| a x IH]; [done |].
  change (String a x +:+ y) with (String a (x +:+ y)).
  simpl. by rewrite IH, orb_assoc.
Qed.

Lemma substring_full (s : string) : substring 0 (String.length s) s = s.
Proof. induction s as [| a s IH]; simpl; [done |]. by rewrite IH. Qed.

Lemma substring_split (s : string) :
  ∀ i : nat, (i ≤ String.length s)%nat →
    substring 0 i s +:+ substring i (String.length s - i) s = s.
Proof.
  induction s as [| a s IH]; intros i Hi.
  - by destruct i.
  - destruct i as [| i].
    + simpl. by rewrite substring_full.
    + simpl in Hi.
      change (substring 0 (S i) (String a s)) with (String a (substring 0 i s)).
      change (substring (S i) (String.length (String a s) - S i) (String a s))
        with (substring i (String.length s - i) s).
      change (String a (substring 0 i s) +:+ substring i (String.length s - i) s)
        with (String a (substring 0 i s +:+ substring i (String.length s - i) s)).
      f_equal. apply IH. lia.
Qed.

Lemma substring_length (s : string) :
  ∀ i : nat, (i ≤ String.length s)%nat →
    String.length (substring i (String.length s - i) s) = (String.length s - i)%nat.
Proof.
  induction s as [| a s IH]; intros i Hi.
  - by destruct i.
  - destruct i as [| i].
    + simpl. by rewrite substring_full.
    + simpl in Hi.
      change (substring (S i) (String.length (String a s) - S i) (String a s))
        with (substring i (String.length s - i) s).
      rewrite IH by lia. reflexivity.
Qed.

Lemma rfind_None (c : ascii) (s : string) : rfind c s = None → has_char c s = false.
Proof.
  induction s as [| a s IH]; simpl; [done |].
  destruct (rfind c s); [discriminate |].
  destruct (Ascii.eqb a c); [discriminate |]. intros _. by rewrite IH.
Qed.

(** From the last occurrence of [c] on, the string is [c] followed by a
    string without [c]. *)
Lemma rfind_Some (c : ascii) (s : string) :
  ∀ i : nat, rfind c s = Some i →
    (i < String.length s)%nat
    ∧ ∃ r : string,
        substring i (String.length s - i) s = String c r ∧ has_char c r = false.
Proof.
  induction s as [| a s IH]; intros i; cbn [rfind]; [discriminate |].
  destruct (rfind c s) as [j |] eqn:Hr.
  - intros [= <-]. destruct (IH j eq_refl) as (Hlt & r & Hsub & Hno).
    split; [simpl; lia |]. exists r. split; [| done].
    change (substring (S j) (String.length (String a s) - S j) (String a s))
      with (substring j (String.length s - j) s). exact Hsub.
  - destruct (Ascii.eqb_spec a c) as [-> | Hne]; [| discriminate].
    intros [= <-]. split; [simpl; lia |]. exists s.
    split; [| by apply rfind_None].
    rewrite Nat.sub_0_r. apply (substring_full (String c s)).
Qed.

Lemma append_empty_r (s : string) : s +:+ "" = s.
Proof.
  induction s as [| a s IH]; [done |].
  change (String a s +:+ "") with (String a (s +:+ "")). by rewrite IH.
Qed.

Lemma name_stem_suffix (p : PurePath) : name p = stem p +:+ suffix p.
Proof.
  unfold stem, suffix, suffix_index.
  destruct (rfind "." (name p)) as [i |] eqn:Hr.
  - destruct ((0 <? i)%nat && (i <? String.length (name p) - 1)%nat) eqn:Hc.
    + apply andb_prop in Hc as [_ Hlt%Nat.ltb_lt].
      symmetry. apply substring_split. lia.
    + symmetry. apply append_empty_r.
  - symmetry. apply append_empty_r.
Qed.

Lemma suffix_shape (p : PurePath) :
  suffix p = ""
  ∨ ∃ ext : string, suffix p = String "." ext ∧ ext ≠ "" ∧ has_char "." ext = false.
Proof.
  unfold suffix, suffix_index.
  destruct (rfind "." (name p)) as [i |] eqn:Hr; [| by left].
  destruct ((0 <? i)%nat && (i <? String.length (name p) - 1)%nat) eqn:Hc; [| by left].
  apply andb_prop in Hc as [_ Hlt%Nat.ltb_lt].
  destruct (rfind_Some _ _ _ Hr) as (Hi & r & Hsub & Hno).
  right. exists r. split; [done |]. split; [| done].
  intros ->. pose proof (substring_length (name p) i ltac:(lia)) as Hlen.
  rewrite Hsub in Hlen. simpl in Hlen. lia.
Qed.

Lemma name_parts (p : PurePath) :
  Forall good_part (parts p) → has_char "/" (name p) = false.
Proof.
  unfold name. destruct p as [r ps]; cbn [parts].
  induction 1 as [| x l [_ Hx] Hl IH]; [done |].
  destruct l as [| y l]; [done |]. exact IH.
Qed.

Lemma stem_no_slash (p : PurePath) :
  Forall good_part (parts p) → has_char "/" (stem p) = false.
Proof.
  intros Hn%name_parts. unfold stem.
  destruct (suffix_index (name p)); [by apply has_char_substring | done].
Qed.

Lemma transcript_name_good (st : string) :
  has_char "/" st = false → good_part (st +:+ "_transcript.txt").
Proof.
  intros Hst. split; [split |].
  - by destruct st.
  - destruct st as [| a [| b st]]; discriminate.
  - by rewrite has_char_append, Hst.
Qed.

Lemma Path_single (x : string) :
  good_part x → Path x = {| root := ""; parts := [x] |}.
Proof.
  intros Hx. apply (Path_path_str {| root := ""; parts := [x] |}).
  split; [by left | constructor; [exact Hx | constructor]].
Qed.

Lemma parent_normalised (p : PurePath) : normalised p → normalised (parent p).
Proof.
  intros [Hr Hall]. unfold parent. destruct (parts p) as [| x l] eqn:Hp.
  - split; [done |]. by rewrite Hp.
  - split; [done |]. cbn [parts].
    apply Forall_forall. intros y Hy%list_elem_of_In.
    assert (Hin : In y (x :: l)).
    { destruct (exists_last (l:=x :: l) ltac:(done)) as (l' & z & Heq).
      rewrite Heq in Hy |- *. rewrite removelast_last in Hy.
      apply in_or_app. by left. }
    eapply Forall_forall in Hall; [exact Hall |]. by apply list_elem_of_In.
Qed.

(** C8.  For every input path the result names a file in the same directory
    as the input (its parent is the input's parent) whose name is the input's
    name with the extension, if any, replaced by [_transcript.txt]; the
    extension is the part of the name from its last dot on; and
    ["/x/song.mp3"] gives ["/x/song_transcript.txt"]. *)
Theorem default_transcript_path_is_sibling :
  (∀ p : string,
      let src := Path p in
      let dst := Path (get_default_transcript_path p) in
      parent dst = parent src
      ∧ name src = stem src +:+ suffix src
      ∧ name dst = stem src +:+ "_transcript.txt"
      ∧ (suffix src = ""
         ∨ ∃ ext : string,
             suffix src = String "." ext ∧ ext ≠ "" ∧ has_char "." ext = false))
  ∧ get_default_transcript_path "/x/song.mp3" = "/x/song_transcript.txt".
Proof.
  split; [| reflexivity].
  intros p src dst.
  pose proof (Path_normalised p) as Hsrc. fold src in Hsrc.
  pose proof (parent_normalised src Hsrc) as [Hproot Hpparts].
  pose proof (transcript_name_good (stem src) (stem_no_slash src (proj2 Hsrc))) as Hgood.
  assert (Hdst : dst = {| root := root (parent src);
                          parts := parts (parent src) ++ [stem src +:+ "_transcript.txt"] |}).
  { unfold dst, get_default_transcript_path. fold src.
    unfold joinpath. rewrite (Path_single _ Hgood). cbn [root parts].
    rewrite decide_True by done.
    apply Path_path_str. split; [done |]. cbn [parts].
    apply Forall_app. split; [done | constructor; [exact Hgood | constructor]]. }
  split; [| split; [apply name_stem_suffix | split; [| apply suffix_shape]]].
  - rewrite Hdst. unfold parent at 1. cbn [parts root].
    destruct (parts (parent src) ++ [stem src +:+ "_transcript.txt"]) eqn:Happ.
    { by apply app_eq_nil in Happ as [_ ?]. }
    rewrite <- Happ, removelast_last.
    unfold parent at 3. destruct (parts src) eqn:Hps.
    + unfold parent. rewrite Hps. destruct src; simpl in *. by subst.
    + by unfold parent; rewrite Hps.
  - rewrite Hdst. unfold name. cbn [parts]. apply last_last.
Qed.

(** ** Load *)



(** ** Cleanup *)

Lemma bind_post {U A B} (m : M U A) (k : A → M U B) (Q : world U → Prop)
    (w : world U) :
  (∀ e w1, m w = (inl e, w1) → Q w1) →
  (∀ a w1, m w = (inr a, w1) → Q (k a w1).2) →
  Q ((m ≫= k) w).2.
Proof.
  intros He Ha. rewrite bind_run.
  destruct (m w) as [[e | a] w1] eqn:Hm; [by apply (He e) | by apply (Ha a)].
Qed.

Lemma temp_file_not_dir (n : string) : path_join temp_dir n ≠ temp_dir.
Proof. discriminate. Qed.

Lemma temp_file_below (n : string) :
  starts_with (temp_dir +:+ "/") (path_join temp_dir n) = true.
Proof. reflexivity. Qed.

Lemma temp_dir_not_below : starts_with (temp_dir +:+ "/") temp_dir = false.
Proof. reflexivity. Qed.



Lemma below_insert_dir (f : FS) :
  below_temp_dir (<[temp_dir := Dir]> f) = below_temp_dir f.
Proof.
  unfold below_temp_dir. apply map_filter_insert_not.
  intros y Hy. cbn [fst] in Hy. by rewrite temp_dir_not_below in Hy.
Qed.

Lemma below_rmtree (f : FS) :
  below_temp_dir (filter (fun kv : string * node => ¬ in_tree temp_dir kv.1) f) = ∅.
Proof.
  unfold below_temp_dir. apply map_empty. intros p.
  apply map_lookup_filter_None. right. intros x [Hx Hn]%map_lookup_filter_Some Hp.
  cbn [fst] in *. apply Hn. by right.
Qed.



(** Turn a goal about the final world of a run into one about the run. *)
Ltac via_run H :=
  match type of H with
  | _ = (?r, ?w1) => change w1 with (r, w1).2; rewrite <- H
  end.

Section Cleanup.

Context {U : Type}.
Variable env : Env.
Implicit Types w : world U.

Lemma load_audio_frame path w : (load_audio env path w).2 = w.
Proof.
  unfold load_audio, try_except, from_file. rewrite !bind_run. simpl.
  destruct (fs w !! path) as [[| x] |]; simpl; try (case_decide; done); try done.
  destruct (ffmpeg_installed env); simpl; try (case_decide; done); try done.
  unfold lift. destruct (decode env _ x); try (case_decide; done); done.
Qed.

Lemma transcribe_file_frame p w :
  fs (transcribe_file env p w).2 = fs w
  ∧ history (transcribe_file env p w).2 = history w.
Proof. unfold transcribe_file. by destruct (fs w !! p) as [[| x] |]. Qed.

(** What [mkdir] leaves: on a raise nothing changed; on success the directory
    is there. *)
Lemma mkdir_exist_ok_post d w :
  match mkdir_exist_ok d w with
  | (inl _, w1) => w1 = w
  | (inr _, w1) =>
      fs w1 !! d = Some Dir
      ∧ api_calls w1 = api_calls w
      ∧ ((fs w !! d = Some Dir ∧ w1 = w)
         ∨ (fs w !! d = None ∧ fs w1 = <[d := Dir]> (fs w)
            ∧ history w1 = fs w1 :: history w))
  end.
Proof.
  unfold mkdir_exist_ok. rewrite bind_run. simpl.
  destruct (fs w !! d) as [[| x] |] eqn:Hd; simpl.
  - split; [done |]. split; [done |]. by left.
  - done.
  - split; [apply lookup_insert_eq |]. split; [done |]. by right.
Qed.

Lemma export_keeps_dir chunk n w :
  fs w !! temp_dir = Some Dir →
  fs (export env chunk temp_dir n w).2 !! temp_dir = Some Dir.
Proof.
  intros Hd. unfold export. rewrite bind_run. simpl. rewrite Hd.
  pose proof (temp_file_not_dir n) as Hne.
  destruct (fs w !! path_join temp_dir n) as [[| x] |]; simpl; [done | |];
    (destruct (encode_mp3 env chunk); simpl; by rewrite lookup_insert_ne).
Qed.

Lemma unlink_keeps_dir n w :
  fs w !! temp_dir = Some Dir →
  fs (unlink (path_join temp_dir n) w).2 !! temp_dir = Some Dir.
Proof.
  intros Hd. unfold unlink. rewrite bind_run. simpl.
  pose proof (temp_file_not_dir n) as Hne.
  destruct (fs w !! path_join temp_dir n) as [[| x] |]; simpl; [done | | done].
  by rewrite lookup_delete_ne.
Qed.

(** Whatever the loop does and however it ends, the working directory it
    found is still there. *)
Lemma chunk_loop_keeps_dir cb total chunks :
  ∀ i acc w,
    fs w !! temp_dir = Some Dir →
    fs (chunk_loop env cb total i chunks acc w).2 !! temp_dir = Some Dir.
Proof.
  induction chunks as [| chunk rest IH]; intros i acc w Hd; [done |].
  cbn [chunk_loop].
  apply bind_post; intros ? w1 H1;
    (assert (Hd1 : fs w1 !! temp_dir = Some Dir)
       by (via_run H1; by rewrite (proj1 (notify_frame _ _ _)))); [done |].
  apply bind_post; intros ? w2 H2;
    (assert (Hd2 : fs w2 !! temp_dir = Some Dir)
       by (via_run H2; by apply export_keeps_dir)); [done |].
  apply bind_post; intros ? w3 H3;
    (assert (Hd3 : fs w3 !! temp_dir = Some Dir)
       by (via_run H3; by rewrite (proj1 (transcribe_file_frame _ _)))); [done |].
  apply bind_post; intros ? w4 H4;
    (assert (Hd4 : fs w4 !! temp_dir = Some Dir)
       by (via_run H4; by apply unlink_keeps_dir)); [done |].
  apply bind_post; intros ? w5 H5;
    (assert (Hd5 : fs w5 !! temp_dir = Some Dir)
       by (via_run H5; by rewrite (proj1 (notify_frame _ _ _)))); [done |].
  by apply IH.
Qed.

(** The [finally] block on a world that has the working directory: it
    returns normally and leaves nothing of the tree. *)
Lemma cleanup_removes_tree w :
  fs w !! temp_dir = Some Dir →
  ∃ w' : world U,
    (b ← path_exists temp_dir; if b : bool then rmtree temp_dir else mret tt) w
    = (inr tt, w')
    ∧ fs w' = filter (fun kv : string * node => ¬ in_tree temp_dir kv.1) (fs w)
    ∧ api_calls w' = api_calls w
    ∧ history w' = fs w' :: history w
    ∧ no_temp_tree (fs w').
Proof.
  intros Hd. eexists. split.
  { unfold path_exists, rmtree. rewrite !bind_run. simpl.
    rewrite Hd. simpl. rewrite bind_run. simpl. rewrite Hd. reflexivity. }
  simpl. repeat split; [| apply below_rmtree].
  apply map_lookup_filter_None. right. intros x _ Hn. apply Hn. by left.
Qed.

(** The protected block with its [finally]: entered with the working
    directory in place, it leaves nothing of the tree, however it ends. *)
Lemma protected_block_removes_tree {A} (body : M U A) w :
  (∀ w0, fs w0 !! temp_dir = Some Dir → fs (body w0).2 !! temp_dir = Some Dir) →
  fs w !! temp_dir = Some Dir →
  no_temp_tree
    (fs (try_finally body
           (b ← path_exists temp_dir; if b : bool then rmtree temp_dir else mret tt)
           w).2).
Proof.
  intros Hbody Hd. unfold try_finally.
  specialize (Hbody w Hd). destruct (body w) as [r w1]. simpl in Hbody.
  destruct (cleanup_removes_tree w1 Hbody) as (w' & -> & _ & _ & _ & Hno).
  exact Hno.
Qed.

Lemma loop_and_merge_keeps_dir cb chunks w :
  fs w !! temp_dir = Some Dir →
  fs ((transcripts ← chunk_loop env cb (length chunks) 0 chunks [];
       notify cb "Merging transcripts...";; mret (merge transcripts)) w).2
    !! temp_dir = Some Dir.
Proof.
  intros Hd.
  apply bind_post; intros ? w1 H1;
    (assert (Hd1 : fs w1 !! temp_dir = Some Dir)
       by (via_run H1; by apply chunk_loop_keeps_dir)); [done |].
  apply bind_post; intros ? w2 H2;
    (assert (Hd2 : fs w2 !! temp_dir = Some Dir)
       by (via_run H2; by rewrite (proj1 (notify_frame _ _ _)))); done.
Qed.

(** Every run of the chunked pipeline ends either with nothing left of the
    working tree, or with a raise that came before the directory was set up
    and a file system it never touched. *)
Lemma transcribe_large_file_cleanup path cb w :
  no_temp_tree (fs (transcribe_large_file env path cb w).2)
  ∨ (fs (transcribe_large_file env path cb w).2 = fs w
     ∧ ¬ returns (transcribe_large_file env path cb w).1).
Proof.
  unfold transcribe_large_file.
  rewrite bind_run.
  pose proof (notify_frame cb "Loading audio file..." w) as (Hf1 & _).
  destruct (notify cb "Loading audio file..." w) as [[e | x1] w1]; simpl in Hf1;
    [right; simpl; split; [congruence | by intros []] |].
  rewrite bind_run.
  pose proof (load_audio_frame path w1) as Hl.
  destruct (load_audio env path w1) as [[e | loaded] w2]; simpl in Hl; subst w2;
    [right; simpl; split; [congruence | by intros []] |].
  rewrite bind_run.
  pose proof (notify_frame cb "Splitting audio into chunks..." w1) as (Hf2 & _).
  destruct (notify cb "Splitting audio into chunks..." w1) as [[e | x2] w2];
    simpl in Hf2; [right; simpl; split; [congruence | by intros []] |].
  rewrite bind_run. unfold lift.
  destruct (split_audio_into_chunks loaded.1 20) as [e | chunks];
    [right; simpl; split; [congruence | by intros []] |].
  cbv beta iota. rewrite bind_run.
  pose proof (notify_frame cb ("Audio split into " +:+ str_nat (length chunks) +:+ " chunks") w2)
    as (Hf3 & _).
  destruct (notify cb ("Audio split into " +:+ str_nat (length chunks) +:+ " chunks") w2)
    as [[e | x3] w3]; simpl in Hf3;
    [right; simpl; split; [congruence | by intros []] |].
  rewrite bind_run.
  pose proof (mkdir_exist_ok_post temp_dir w3) as Hmk.
  destruct (mkdir_exist_ok temp_dir w3) as [[e | x4] w4].
  { subst w4. right. simpl. split; [congruence | by intros []]. }
  destruct Hmk as (Hd & _). left.
  apply protected_block_removes_tree; [| exact Hd].
  intros w0 H0. by apply loop_and_merge_keeps_dir.
Qed.

End Cleanup.


(** ** One chunk file at a time *)



(** ** The observer *)

Lemma agree_ret {U1 U2 A} (a : A) : agree (mret a : M U1 A) (mret a : M U2 A).
Proof. by intros w1 w2 H. Qed.

Lemma agree_raise {U1 U2 A} (e : exn) :
  agree (raise e : M U1 A) (raise e : M U2 A).
Proof. by intros w1 w2 H. Qed.

Lemma agree_lift {U1 U2 A} (r : exn + A) :
  agree (lift r : M U1 A) (lift r : M U2 A).
Proof. by intros w1 w2 H. Qed.

Lemma agree_bind {U1 U2 A B} (m1 : M U1 A) (m2 : M U2 A)
    (k1 : A → M U1 B) (k2 : A → M U2 B) :
  agree m1 m2 → (∀ a, agree (k1 a) (k2 a)) → agree (m1 ≫= k1) (m2 ≫= k2).
Proof.
  intros Hm Hk w1 w2 Hw. rewrite !bind_run.
  destruct (Hm w1 w2 Hw) as [Hr Hc].
  destruct (m1 w1) as [[e1 | a1] w1'], (m2 w2) as [[e2 | a2] w2'];
    simpl in Hr, Hc; try discriminate.
  - by inversion Hr; subst.
  - inversion Hr; subst. by apply Hk.
Qed.

Lemma agree_get_fs {U1 U2 A} (k1 : FS → M U1 A) (k2 : FS → M U2 A) :
  (∀ f, agree (k1 f) (k2 f)) → agree (get_fs ≫= k1) (get_fs ≫= k2).
Proof.
  intros Hk w1 w2 Hw. rewrite !bind_run. simpl.
  destruct Hw as (Hf & Hc & Hh). rewrite Hf. by apply Hk.
Qed.

Lemma agree_put_fs {U1 U2} (f : FS) : agree (put_fs f : M U1 unit) (put_fs f : M U2 unit).
Proof.
  intros w1 w2 (Hf & Hc & Hh). split; [done |].
  unfold put_fs, same_core; simpl. by rewrite Hc, Hh.
Qed.

(** Quiet observers, or none, make the same notification step. *)
Lemma agree_notify {U1 U2} (cb1 : option (observer U1)) (cb2 : option (observer U2))
    (msg : string) :
  quiet cb1 → quiet cb2 → agree (notify cb1 msg) (notify cb2 msg).
Proof.
  intros Hq1 Hq2 w1 w2 Hw.
  assert (H1 : (notify cb1 msg w1).1 = inr tt ∧ same_core (notify cb1 msg w1).2 w1).
  { unfold notify. destruct cb1 as [f |]; [| done].
    specialize (Hq1 msg (ui w1)). destruct (f msg (ui w1)) as [r u].
    simpl in Hq1. by subst r. }
  assert (H2 : (notify cb2 msg w2).1 = inr tt ∧ same_core (notify cb2 msg w2).2 w2).
  { unfold notify. destruct cb2 as [f |]; [| done].
    specialize (Hq2 msg (ui w2)). destruct (f msg (ui w2)) as [r u].
    simpl in Hq2. by subst r. }
  destruct H1 as [-> (Ha & Hb & Hc)], H2 as [-> (Ha' & Hb' & Hc')].
  destruct Hw as (Hf & Hn & Hh). split; [done |].
  unfold same_core. by rewrite Ha, Hb, Hc, Ha', Hb', Hc'.
Qed.

Lemma agree_try_finally {U1 U2 A} (b1 : M U1 A) (b2 : M U2 A)
    (f1 : M U1 unit) (f2 : M U2 unit) :
  agree b1 b2 → agree f1 f2 → agree (try_finally b1 f1) (try_finally b2 f2).
Proof.
  intros Hb Hf w1 w2 Hw. unfold try_finally.
  destruct (Hb w1 w2 Hw) as [Hr Hc].
  destruct (b1 w1) as [r1 w1'], (b2 w2) as [r2 w2']; simpl in Hr, Hc. subst r2.
  destruct (Hf w1' w2' Hc) as [Hr' Hc'].
  destruct (f1 w1') as [[e1 | x1] w1''], (f2 w2') as [[e2 | x2] w2''];
    simpl in Hr', Hc'; try discriminate; [by inversion Hr'; subst | done].
Qed.

Lemma agree_try_except {U1 U2 A} (c : string) (b1 : M U1 A) (b2 : M U2 A)
    (h1 : exn → M U1 A) (h2 : exn → M U2 A) :
  agree b1 b2 → (∀ e, agree (h1 e) (h2 e)) →
  agree (try_except c b1 h1) (try_except c b2 h2).
Proof.
  intros Hb Hh w1 w2 Hw. unfold try_except.
  destruct (Hb w1 w2 Hw) as [Hr Hc].
  destruct (b1 w1) as [[e1 | a1] w1'], (b2 w2) as [[e2 | a2] w2'];
    simpl in Hr, Hc; try discriminate.
  - inversion Hr; subst. case_decide; [by apply Hh | done].
  - by inversion Hr; subst.
Qed.

Create HintDb agree discriminated.

#[local] Hint Resolve agree_ret agree_raise agree_lift agree_put_fs : agree.

(** One step of an agreement proof: peel a bind or a case split. *)
Ltac agree_step :=
  first
    [ apply agree_get_fs; intros ?
    | apply agree_bind; [| intros ?]
    | apply agree_try_finally
    | apply agree_try_except; [| intros ?]
    | solve [auto with agree]
    | match goal with
      | |- agree (match ?x with _ => _ end) _ => destruct x
      | |- agree (if ?x then _ else _) _ => destruct x
      end ].

Section Agreement.

Context {U1 U2 : Type}.
Variable env : Env.
Variables (cb1 : option (observer U1)) (cb2 : option (observer U2)).
Hypothesis quiet1 : quiet cb1.
Hypothesis quiet2 : quiet cb2.

Lemma agree_notify_here (msg : string) : agree (notify cb1 msg) (notify cb2 msg).
Proof. by apply agree_notify. Qed.

Lemma agree_transcribe_file (p : string) :
  agree (transcribe_file (U:=U1) env p) (transcribe_file (U:=U2) env p).
Proof.
  intros w1 w2 (Hf & Hc & Hh). unfold transcribe_file. rewrite Hf, Hc.
  destruct (fs w2 !! p) as [[| x] |]; simpl; done.
Qed.

Lemma agree_get_file_size (p : string) :
  agree (get_file_size (U:=U1) env p) (get_file_size (U:=U2) env p).
Proof. unfold get_file_size. repeat agree_step. Qed.

Lemma agree_mkdir (d : string) :
  agree (mkdir_exist_ok (U:=U1) d) (mkdir_exist_ok (U:=U2) d).
Proof. unfold mkdir_exist_ok. repeat agree_step. Qed.

Lemma agree_unlink (p : string) : agree (unlink (U:=U1) p) (unlink (U:=U2) p).
Proof. unfold unlink. repeat agree_step. Qed.

Lemma agree_rmtree (d : string) : agree (rmtree (U:=U1) d) (rmtree (U:=U2) d).
Proof. unfold rmtree. repeat agree_step. Qed.

Lemma agree_path_exists (d : string) :
  agree (path_exists (U:=U1) d) (path_exists (U:=U2) d).
Proof. unfold path_exists. repeat agree_step. Qed.

Lemma agree_export (chunk : AudioSegment) (d n : string) :
  agree (export (U:=U1) env chunk d n) (export (U:=U2) env chunk d n).
Proof. unfold export. repeat agree_step. Qed.

Lemma agree_load_audio (p : string) :
  agree (load_audio (U:=U1) env p) (load_audio (U:=U2) env p).
Proof. unfold load_audio, from_file. repeat agree_step. Qed.

Lemma agree_chunk_loop (total : nat) (chunks : list AudioSegment) :
  ∀ (i : nat) (acc : list string),
    agree (chunk_loop env cb1 total i chunks acc) (chunk_loop env cb2 total i chunks acc).
Proof.
  induction chunks as [| chunk rest IH]; intros i acc; cbn [chunk_loop].
  - apply agree_ret.
  - apply agree_bind; [apply agree_notify_here | intros _].
    apply agree_bind; [apply agree_export | intros _].
    apply agree_bind; [apply agree_transcribe_file | intros t].
    apply agree_bind; [apply agree_unlink | intros _].
    apply agree_bind; [apply agree_notify_here | intros _].
    apply IH.
Qed.

Lemma agree_transcribe_large_file (p : string) :
  agree (transcribe_large_file env p cb1) (transcribe_large_file env p cb2).
Proof.
  unfold transcribe_large_file.
  apply agree_bind; [apply agree_notify_here | intros _].
  apply agree_bind; [apply agree_load_audio | intros loaded].
  apply agree_bind; [apply agree_notify_here | intros _].
  apply agree_bind; [apply agree_lift | intros chunks].
  apply agree_bind; [apply agree_notify_here | intros _].
  apply agree_bind; [apply agree_mkdir | intros _].
  apply agree_try_finally.
  - apply agree_bind; [apply agree_chunk_loop | intros ts].
    apply agree_bind; [apply agree_notify_here | intros _].
    apply agree_ret.
  - apply agree_bind; [apply agree_path_exists | intros [|]];
      [apply agree_rmtree | apply agree_ret].
Qed.

Lemma agree_transcribe_audio (p : string) :
  agree (transcribe_audio env p cb1) (transcribe_audio env p cb2).
Proof.
  unfold transcribe_audio.
  apply agree_bind; [apply agree_notify_here | intros _].
  apply agree_bind; [apply agree_get_file_size | intros sz].
  destruct (size_router sz).
  - apply agree_bind; [apply agree_notify_here | intros _].
    apply agree_transcribe_file.
  - apply agree_bind; [apply agree_notify_here | intros _].
    apply agree_transcribe_large_file.
Qed.

End Agreement.


(** ** Audio of zero duration *)

Lemma split_zero_duration (a : AudioSegment) :
  len a = 0 → 0 < bitrate a → bitrate a ≤ chunk_size_bytes 20 * 8 * 1000 →
  split_audio_into_chunks a 20 = inr [].
Proof.
  intros Hlen Hpos Hle. unfold split_audio_into_chunks.
  rewrite chunk_length_ms_nonzero by lia.
  assert (HL : 0 < Z.quot (chunk_size_bytes 20 * 8 * 1000) (bitrate a)).
  { rewrite Z.quot_div_nonneg by (unfold chunk_size_bytes; lia).
    apply Z.div_str_pos. lia. }
  unfold make_chunks.
  destruct (Z.eqb_spec (Z.quot (chunk_size_bytes 20 * 8 * 1000) (bitrate a)) 0); [lia |].
  rewrite Hlen. unfold ceil_div. simpl (- 0). rewrite Z.div_0_l by lia. reflexivity.
Qed.

Lemma load_audio_ok {U} (env : Env) (path : string) (w : world U) (x : file)
    (audio : AudioSegment) :
  fs w !! path = Some (File x) →
  ffmpeg_installed env = true →
  decode env (audio_format_of (file_ext_of path)) x = inr audio →
  load_audio env path w = (inr (audio, file_ext_of path), w).
Proof.
  intros Hlk Hff Hdec.
  unfold load_audio, try_except, from_file. rewrite !bind_run. simpl.
  rewrite Hlk, Hff. unfold lift. rewrite ?bind_run. by rewrite Hdec.
Qed.

Lemma bind_run_ok {U A B} (m : M U A) (k : A → M U B) (w w1 : world U) (a : A) :
  m w = (inr a, w1) → (m ≫= k) w = k a w1.
Proof. intros H. by rewrite bind_run, H. Qed.

(** The chunked pipeline without observer on audio of zero duration. *)
Lemma transcribe_large_file_zero_duration {U} (env : Env) (path : string)
    (w : world U) (x : file) (audio : AudioSegment) :
  fs w !! path = Some (File x) →
  ffmpeg_installed env = true →
  decode env (audio_format_of (file_ext_of path)) x = inr audio →
  len audio = 0 → 0 < bitrate audio → bitrate audio ≤ chunk_size_bytes 20 * 8 * 1000 →
  (∀ f : file, fs w !! temp_dir ≠ Some (File f)) →
  (transcribe_large_file env path None w).1 = inr ""
  ∧ api_calls (transcribe_large_file env path None w).2 = api_calls w.
Proof.
  intros Hlk Hff Hdec Hlen Hpos Hle Hnofile.
  unfold transcribe_large_file.
  rewrite (bind_run_ok _ _ w w tt) by reflexivity.
  rewrite (bind_run_ok _ _ w w (audio, file_ext_of path)) by (by apply (load_audio_ok env path w x)).
  rewrite (bind_run_ok _ _ w w tt) by reflexivity.
  rewrite (bind_run_ok _ _ w w [])
    by (unfold lift; cbn [fst]; by rewrite split_zero_duration).
  rewrite (bind_run_ok _ _ w w tt) by reflexivity.
  pose proof (mkdir_exist_ok_post temp_dir w) as Hmk.
  destruct (mkdir_exist_ok temp_dir w) as [[e | x1] w1] eqn:Hrun.
  { exfalso. unfold mkdir_exist_ok in Hrun. rewrite bind_run in Hrun. simpl in Hrun.
    destruct (fs w !! temp_dir) as [[| f] |] eqn:Hd; try discriminate.
    by apply (Hnofile f). }
  destruct Hmk as (Hdir & Hcalls & _).
  rewrite (bind_run_ok _ _ w w1 x1) by exact Hrun.
  unfold try_finally. cbn [chunk_loop length].
  rewrite (bind_run_ok _ _ w1 w1 []) by reflexivity.
  rewrite (bind_run_ok _ _ w1 w1 tt) by reflexivity.
  change ((mret (merge []) : M U string) w1) with (inr "" : exn + string, w1).
  destruct (cleanup_removes_tree w1 Hdir) as (w' & -> & _ & Hc & _).
  simpl. split; [reflexivity | congruence].
Qed.

(** C6, as the code has it.  For input whose decoded audio has zero duration
    (and a positive bitrate within the chunk budget), run with no observer or a
    quiet one and with no regular file in the place of the working directory,
    the split gives the empty chunk sequence and the chunked pipeline makes no
    call to the service and returns the empty transcript. *)
Theorem zero_duration_gives_empty_transcript :
  ∀ (U : Type) (env : Env) (path : string) (cb : option (observer U))
    (w : world U) (x : file) (audio : AudioSegment),
    quiet cb →
    fs w !! path = Some (File x) →
    ffmpeg_installed env = true →
    decode env (audio_format_of (file_ext_of path)) x = inr audio →
    len audio = 0 →
    0 < bitrate audio → bitrate audio ≤ chunk_size_bytes 20 * 8 * 1000 →
    (∀ f : file, fs w !! temp_dir ≠ Some (File f)) →
    split_audio_into_chunks audio 20 = inr []
    ∧ (transcribe_large_file env path cb w).1 = inr ""
    ∧ api_calls (transcribe_large_file env path cb w).2 = api_calls w.
Proof.
  intros U env path cb w x audio Hq Hlk Hff Hdec Hlen Hpos Hle Hnofile.
  split; [by apply split_zero_duration |].
  destruct (transcribe_large_file_zero_duration env path w x audio
              Hlk Hff Hdec Hlen Hpos Hle Hnofile) as [Hres Hcalls].
  destruct (agree_transcribe_large_file env cb (None : option (observer U)) Hq I path w w)
    as [Hr (_ & Hc & _)]; [done |].
  split; [by rewrite Hr | by rewrite Hc].
Qed.

(** ** The properties at the sample inputs *)




(** C4 at two and a half minutes of audio in chunks of 59443 ms. *)
Lemma split_covers_audio_witness :
  ∃ (init : list AudioSegment) (last : AudioSegment),
    split_audio_into_chunks talk 20 = inr (init ++ [last])
    ∧ Forall (fun c => len c = 59443) init
    ∧ 0 < len last ∧ len last ≤ 59443
    ∧ foldr Z.add 0 (map len (init ++ [last])) = len talk
    ∧ concat (map samples (init ++ [last])) = samples talk.
Proof.
  apply (split_covers_audio talk 20 59443); vm_compute; reflexivity.
Defined.

(** C5 on a run with three chunks. *)
Lemma merge_is_space_join_in_chunk_order_witness :
  ∃ (x : file) (audio : AudioSegment) (chunks : list AudioSegment)
    (texts : list string),
    fs desk !! "talk.mp3" = Some (File x)
    ∧ decode (studio talk) (audio_format_of (file_ext_of "talk.mp3")) x = inr audio
    ∧ split_audio_into_chunks audio 20 = inr chunks
    ∧ length texts = length chunks
    ∧ (∀ (j : nat) (c : AudioSegment),
          chunks !! j = Some c →
          ∃ (f : file) (tj : string),
            encode_mp3 (studio talk) c = inr f
            ∧ whisper (studio talk) (api_calls desk + j)
                (path_join temp_dir (chunk_name j)) f = inr tj
            ∧ texts !! j = Some tj)
    ∧ "part0 part1 part2" = merge texts.
Proof.
  destruct merge_is_space_join_in_chunk_order as (_ & _ & _ & _ & Hrun).
  apply (Hrun unit (studio talk) "talk.mp3" None desk
           (transcribe_large_file (studio talk) "talk.mp3" None desk).2).
  vm_compute. reflexivity.
Defined.

(** C6 fails as stated: a recording of zero duration is transcribed to the
    empty string, without any error. *)
Lemma zero_duration_returns_normally :
  len hush = 0
  ∧ split_audio_into_chunks hush 20 = inr []
  ∧ (transcribe_large_file (studio hush) "talk.mp3" None desk).1 = inr ""
  ∧ ¬ raises (transcribe_large_file (studio hush) "talk.mp3" None desk).1
        "EmptyAudioError".
Proof. repeat split; try reflexivity. vm_compute. tauto. Qed.

(** C6 as amended, with an observer that keeps the strings. *)
Lemma zero_duration_gives_empty_transcript_witness :
  split_audio_into_chunks hush 20 = inr []
  ∧ (transcribe_large_file (studio hush) "talk.mp3" (Some logger) logdesk).1 = inr ""
  ∧ api_calls (transcribe_large_file (studio hush) "talk.mp3" (Some logger) logdesk).2
    = api_calls logdesk.
Proof.
  apply (zero_duration_gives_empty_transcript (list string) (studio hush) "talk.mp3"
           (Some logger) logdesk upload hush).
  - intros msg u. reflexivity.
  - vm_compute. reflexivity.
  - reflexivity.
  - reflexivity.
  - reflexivity.
  - vm_compute. reflexivity.
  - vm_compute. discriminate.
  - intros f. vm_compute. discriminate.
Defined.





(** * Further properties of the code *)

(** ** Transcript paths *)

Lemma append_inj_l (s a b : string) : s +:+ a = s +:+ b → a = b.
Proof.
  induction s as [| c s IH]; [done |].
  change (String c s +:+ a) with (String c (s +:+ a)).
  change (String c s +:+ b) with (String c (s +:+ b)).
  intros [= H]. by apply IH.
Qed.

(** The result of [get_default_transcript_path], parsed. *)
Lemma default_transcript_path_parsed (p : string) :
  Path (get_default_transcript_path p)
  = {| root := root (parent (Path p));
       parts := parts (parent (Path p)) ++ [stem (Path p) +:+ "_transcript.txt"] |}.
Proof.
  pose proof (Path_normalised p) as Hsrc.
  pose proof (parent_normalised _ Hsrc) as [Hproot Hpparts].
  pose proof (transcript_name_good _ (stem_no_slash _ (proj2 Hsrc))) as Hgood.
  unfold get_default_transcript_path, joinpath.
  rewrite (Path_single _ Hgood). cbn [root parts].
  rewrite decide_True by done.
  apply Path_path_str. split; [done |]. cbn [parts].
  apply Forall_app. split; [done | constructor; [exact Hgood | constructor]].
Qed.

(** X3.  The default transcript path never denotes the audio file itself:
    for every input the result parses to a path other than the input's, so
    writing the transcript there cannot overwrite the audio. *)
Theorem default_transcript_path_differs_from_audio (p : string) :
  Path (get_default_transcript_path p) ≠ Path p
  ∧ get_default_transcript_path p ≠ p.
Proof.
  assert (Hne : Path (get_default_transcript_path p) ≠ Path p).
  { intros Heq.
    assert (Hname : name (Path (get_default_transcript_path p)) = name (Path p))
      by (by rewrite Heq).
    rewrite default_transcript_path_parsed in Hname.
    unfold name at 1 in Hname. cbn [parts] in Hname. rewrite last_last in Hname.
    rewrite (name_stem_suffix (Path p)) in Hname.
    apply append_inj_l in Hname.
    destruct (suffix_shape (Path p)) as [Hs | (ext & Hs & _)];
      rewrite Hs in Hname; discriminate. }
  split; [exact Hne |]. intros Heq. apply Hne. by rewrite Heq.
Qed.

(** ** What the pipeline does to the file system *)

Section FileSystemInvariant.

Context {U : Type}.
Variable env : Env.
Variable I : FS → Prop.
Hypothesis I_export : ∀ (f : FS) (n : string) (x : file),
  I f → I (<[path_join temp_dir n := File x]> f).
Hypothesis I_unlink : ∀ (f : FS) (n : string),
  I f → I (delete (path_join temp_dir n) f).
Hypothesis I_mkdir : ∀ f : FS, I f → I (<[temp_dir := Dir]> f).
Hypothesis I_rmtree : ∀ f : FS,
  I f → I (filter (fun kv : string * node => ¬ in_tree temp_dir kv.1) f).
Implicit Types w : world U.

Lemma export_inv chunk n w : I (fs w) → I (fs (export env chunk temp_dir n w).2).
Proof.
  intros Hi. unfold export. rewrite bind_run. simpl.
  destruct (fs w !! temp_dir) as [[| d] |]; simpl; try done.
  destruct (fs w !! path_join temp_dir n) as [[| x] |]; simpl; try done;
    (destruct (encode_mp3 env chunk); simpl; by apply I_export).
Qed.

Lemma unlink_inv n w : I (fs w) → I (fs (unlink (path_join temp_dir n) w).2).
Proof.
  intros Hi. unfold unlink. rewrite bind_run. simpl.
  destruct (fs w !! path_join temp_dir n) as [[| x] |]; simpl; try done.
  by apply I_unlink.
Qed.

Lemma mkdir_inv w : I (fs w) → I (fs (mkdir_exist_ok temp_dir w).2).
Proof.
  intros Hi. unfold mkdir_exist_ok. rewrite bind_run. simpl.
  destruct (fs w !! temp_dir) as [[| x] |]; simpl; try done. by apply I_mkdir.
Qed.

Lemma cleanup_inv w :
  I (fs w) →
  I (fs ((b ← path_exists temp_dir; if b : bool then rmtree temp_dir else mret tt) w).2).
Proof.
  intros Hi. unfold path_exists, rmtree. rewrite !bind_run. simpl.
  destruct (fs w !! temp_dir) as [[| x] |] eqn:Hd; simpl; try done;
    rewrite bind_run; simpl; rewrite Hd; simpl; try done.
  by apply I_rmtree.
Qed.

Lemma chunk_loop_inv cb total chunks :
  ∀ i acc w, I (fs w) → I (fs (chunk_loop env cb total i chunks acc w).2).
Proof.
  induction chunks as [| chunk rest IH]; intros i acc w Hi; [done |].
  cbn [chunk_loop].
  apply bind_post; intros ? w1 H1;
    (assert (Hi1 : I (fs w1))
       by (via_run H1; by rewrite (proj1 (notify_frame _ _ _)))); [done |].
  apply bind_post; intros ? w2 H2;
    (assert (Hi2 : I (fs w2)) by (via_run H2; by apply export_inv)); [done |].
  apply bind_post; intros ? w3 H3;
    (assert (Hi3 : I (fs w3))
       by (via_run H3; by rewrite (proj1 (transcribe_file_frame _ _ _)))); [done |].
  apply bind_post; intros ? w4 H4;
    (assert (Hi4 : I (fs w4)) by (via_run H4; by apply unlink_inv)); [done |].
  apply bind_post; intros ? w5 H5;
    (assert (Hi5 : I (fs w5))
       by (via_run H5; by rewrite (proj1 (notify_frame _ _ _)))); [done |].
  by apply IH.
Qed.

Lemma transcribe_large_file_inv path cb w :
  I (fs w) → I (fs (transcribe_large_file env path cb w).2).
Proof.
  intros Hi. unfold transcribe_large_file.
  apply bind_post; intros ? w1 H1;
    (assert (Hi1 : I (fs w1))
       by (via_run H1; by rewrite (proj1 (notify_frame _ _ _)))); [done |].
  apply bind_post; intros ? w2 H2;
    (assert (Hi2 : I (fs w2)) by (via_run H2; by rewrite load_audio_frame)); [done |].
  apply bind_post; intros ? w3 H3;
    (assert (Hi3 : I (fs w3))
       by (via_run H3; by rewrite (proj1 (notify_frame _ _ _)))); [done |].
  apply bind_post; intros ? w4 H4;
    (assert (Hi4 : I (fs w4)) by (unfold lift in H4; by inversion H4; subst)); [done |].
  apply bind_post; intros ? w5 H5;
    (assert (Hi5 : I (fs w5))
       by (via_run H5; by rewrite (proj1 (notify_frame _ _ _)))); [done |].
  apply bind_post; intros ? w6 H6;
    (assert (Hi6 : I (fs w6)) by (via_run H6; by apply mkdir_inv)); [done |].
  unfold try_finally.
  match goal with
  | |- context [let (r, w1) := ?body w6 in _] =>
      assert (Hb : I (fs (body w6).2)); [| destruct (body w6) as [r w7]]
  end.
  { apply bind_post; intros ? w7 H7;
      (assert (Hi7 : I (fs w7)) by (via_run H7; by apply chunk_loop_inv)); [done |].
    apply bind_post; intros ? w8 H8;
      (assert (Hi8 : I (fs w8))
         by (via_run H8; by rewrite (proj1 (notify_frame _ _ _)))); done. }
  simpl in Hb. pose proof (cleanup_inv w7 Hb) as Hc.
  destruct ((b ← path_exists temp_dir; if b : bool then rmtree temp_dir else mret tt) w7)
    as [[e | x] w8]; exact Hc.
Qed.

Lemma get_file_size_frame path w : (get_file_size env path w).2 = w.
Proof.
  unfold get_file_size. rewrite bind_run. simpl.
  by destruct (fs w !! path) as [[| x] |].
Qed.

Lemma transcribe_audio_inv path cb w :
  I (fs w) → I (fs (transcribe_audio env path cb w).2).
Proof.
  intros Hi. unfold transcribe_audio.
  apply bind_post; intros ? w1 H1;
    (assert (Hi1 : I (fs w1))
       by (via_run H1; by rewrite (proj1 (notify_frame _ _ _)))); [done |].
  apply bind_post; intros sz w2 H2;
    (assert (Hi2 : I (fs w2)) by (via_run H2; by rewrite get_file_size_frame)); [done |].
  destruct (size_router sz).
  - apply bind_post; intros ? w3 H3;
      (assert (Hi3 : I (fs w3))
         by (via_run H3; by rewrite (proj1 (notify_frame _ _ _)))); [done |].
    by rewrite (proj1 (transcribe_file_frame _ _ _)).
  - apply bind_post; intros ? w3 H3;
      (assert (Hi3 : I (fs w3))
         by (via_run H3; by rewrite (proj1 (notify_frame _ _ _)))); [done |].
    by apply transcribe_large_file_inv.
Qed.

End FileSystemInvariant.

Lemma in_tree_temp_file (n : string) : in_tree temp_dir (path_join temp_dir n).
Proof. right. apply temp_file_below. Qed.

Lemma same_outside_trans_insert (f0 f : FS) (p : string) (x : node) :
  in_tree temp_dir p → same_outside f f0 → same_outside (<[p := x]> f) f0.
Proof.
  intros Hp Hs q Hq. rewrite lookup_insert_ne; [by apply Hs |]. by intros ->.
Qed.

Lemma same_outside_delete (f0 f : FS) (p : string) :
  in_tree temp_dir p → same_outside f f0 → same_outside (delete p f) f0.
Proof.
  intros Hp Hs q Hq. rewrite lookup_delete_ne; [by apply Hs |]. by intros ->.
Qed.

Lemma same_outside_rmtree (f0 f : FS) :
  same_outside f f0 →
  same_outside (filter (fun kv : string * node => ¬ in_tree temp_dir kv.1) f) f0.
Proof.
  intros Hs q Hq. rewrite <- (Hs q Hq).
  destruct (f !! q) as [x |] eqn:Hl.
  - by apply map_lookup_filter_Some.
  - apply map_lookup_filter_None. by left.
Qed.

Lemma no_temp_tree_lookup (f : FS) (p : string) :
  no_temp_tree f → in_tree temp_dir p → f !! p = None.
Proof.
  intros [Hd Hb] [-> | Hp]; [done |].
  destruct (f !! p) as [x |] eqn:Hl; [| done].
  assert (Hin : below_temp_dir f !! p = Some x)
    by (by apply map_lookup_filter_Some).
  by rewrite Hb, lookup_empty in Hin.
Qed.

Lemma same_outside_after_transcribe_audio {U} (env : Env) (path : string)
    (cb : option (observer U)) (w : world U) :
  same_outside (fs (transcribe_audio env path cb w).2) (fs w).
Proof.
  apply (transcribe_audio_inv env (fun f => same_outside f (fs w))); try done.
  - intros f n x. apply same_outside_trans_insert, in_tree_temp_file.
  - intros f n. apply same_outside_delete, in_tree_temp_file.
  - intros f. apply same_outside_trans_insert. by left.
  - intros f. apply same_outside_rmtree.
Qed.

Lemma same_outside_after_transcribe_large_file {U} (env : Env) (path : string)
    (cb : option (observer U)) (w : world U) :
  same_outside (fs (transcribe_large_file env path cb w).2) (fs w).
Proof.
  apply (transcribe_large_file_inv env (fun f => same_outside f (fs w))); try done.
  - intros f n x. apply same_outside_trans_insert, in_tree_temp_file.
  - intros f n. apply same_outside_delete, in_tree_temp_file.
  - intros f. apply same_outside_trans_insert. by left.
  - intros f. apply same_outside_rmtree.
Qed.

Lemma fs_eq_of_outside_and_no_tree (f g : FS) :
  same_outside f g → no_temp_tree f → no_temp_tree g → f = g.
Proof.
  intros Hs Hf Hg. apply map_eq. intros p.
  destruct (decide (in_tree temp_dir p)) as [Hin | Hout].
  - by rewrite !no_temp_tree_lookup.
  - by apply Hs.
Qed.

Lemma transcribe_large_file_restores {U} (env : Env) (path : string)
    (cb : option (observer U)) (w : world U) :
  no_temp_tree (fs w) → fs (transcribe_large_file env path cb w).2 = fs w.
Proof.
  intros Hno. apply fs_eq_of_outside_and_no_tree; [| | done].
  - apply same_outside_after_transcribe_large_file.
  - destruct (transcribe_large_file_cleanup env path cb w) as [H | [H _]];
      [exact H | by rewrite H].
Qed.

Lemma no_temp_tree_after_transcribe_audio {U} (env : Env) (path : string)
    (cb : option (observer U)) (w : world U) :
  no_temp_tree (fs w) → no_temp_tree (fs (transcribe_audio env path cb w).2).
Proof.
  intros Hno. unfold transcribe_audio.
  apply bind_post; intros ? w1 H1;
    (assert (Hn1 : no_temp_tree (fs w1))
       by (via_run H1; by rewrite (proj1 (notify_frame _ _ _)))); [done |].
  apply bind_post; intros sz w2 H2;
    (assert (Hn2 : no_temp_tree (fs w2))
       by (via_run H2; by rewrite get_file_size_frame)); [done |].
  destruct (size_router sz).
  - apply bind_post; intros ? w3 H3;
      (assert (Hn3 : no_temp_tree (fs w3))
         by (via_run H3; by rewrite (proj1 (notify_frame _ _ _)))); [done |].
    by rewrite (proj1 (transcribe_file_frame _ _ _)).
  - apply bind_post; intros ? w3 H3;
      (assert (Hn3 : no_temp_tree (fs w3))
         by (via_run H3; by rewrite (proj1 (notify_frame _ _ _)))); [done |].
    destruct (transcribe_large_file_cleanup env path cb w3) as [H | [H _]];
      [exact H | by rewrite H].
Qed.


(** X7.  A run of [transcribe_audio] that starts without the working tree
    leaves the file system exactly as it found it, on every exit. *)
Theorem transcribe_audio_restores_file_system :
  ∀ (U : Type) (env : Env) (path : string) (cb : option (observer U))
    (w : world U),
    no_temp_tree (fs w) →
    fs (transcribe_audio env path cb w).2 = fs w.
Proof.
  intros U env path cb w Hno. apply fs_eq_of_outside_and_no_tree; [| | done].
  - apply same_outside_after_transcribe_audio.
  - by apply no_temp_tree_after_transcribe_audio.
Qed.

(** ** The direct path *)

Lemma get_file_size_file {U} (env : Env) (path : string) (w : world U) (x : file) :
  fs w !! path = Some (File x) → get_file_size env path w = (inr (st_size x), w).
Proof.
  intros Hl. unfold get_file_size. rewrite bind_run. simpl. by rewrite Hl.
Qed.

Lemma get_file_size_missing {U} (env : Env) (path : string) (w : world U) :
  fs w !! path = None → get_file_size env path w = (inl (FileNotFoundError path), w).
Proof.
  intros Hl. unfold get_file_size. rewrite bind_run. simpl. by rewrite Hl.
Qed.

Lemma size_router_small (s : Z) : s < max_file_size → size_router s = Direct.
Proof.
  intros H. rewrite size_router_spec. unfold max_file_size in H.
  case_decide; [done | lia].
Qed.

Lemma transcribe_file_file {U} (env : Env) (path : string) (w : world U) (x : file) :
  fs w !! path = Some (File x) →
  transcribe_file env path w
  = (whisper env (api_calls w) path x,
     World (fs w) (ui w) (S (api_calls w)) (history w)).
Proof. intros Hl. unfold transcribe_file. by rewrite Hl. Qed.

Lemma small_file_direct_path :
  ∀ (U : Type) (env : Env) (path : string) (cb : option (observer U))
    (w : world U) (x : file),
    fs w !! path = Some (File x) →
    st_size x < max_file_size →
    fs (transcribe_audio env path cb w).2 = fs w
    ∧ history (transcribe_audio env path cb w).2 = history w
    ∧ (api_calls (transcribe_audio env path cb w).2 ≤ S (api_calls w))%nat
    ∧ (quiet cb →
       (transcribe_audio env path cb w).1 = whisper env (api_calls w) path x
       ∧ api_calls (transcribe_audio env path cb w).2 = S (api_calls w)).
Proof.
  intros U env path cb w x Hl Hsz.
  assert (Hgen : ∀ (V : Type) (c : option (observer V)) (v : world V),
             fs v = fs w → history v = history w → api_calls v = api_calls w →
             fs (transcribe_audio env path c v).2 = fs w
             ∧ history (transcribe_audio env path c v).2 = history w
             ∧ (api_calls (transcribe_audio env path c v).2 ≤ S (api_calls w))%nat).
  { intros V c v Hf Hh Hc. unfold transcribe_audio.
    rewrite bind_run.
    pose proof (notify_frame c "Checking file size..." v) as (Hf1 & Hc1 & Hh1).
    destruct (notify c "Checking file size..." v) as [[e | u1] v1]; simpl in *;
      [repeat split; [congruence | congruence | lia] |].
    rewrite bind_run, (get_file_size_file env path v1 x) by congruence.
    rewrite (size_router_small _ Hsz).
    rewrite bind_run.
    match goal with
    | |- context [notify c ?m v1] =>
        pose proof (notify_frame c m v1) as (Hf2 & Hc2 & Hh2);
        destruct (notify c m v1) as [[e | u2] v2]
    end; simpl in *; [repeat split; [congruence | congruence | lia] |].
    rewrite (transcribe_file_file env path v2 x) by congruence.
    simpl. repeat split; [congruence | congruence | lia]. }
  destruct (Hgen U cb w eq_refl eq_refl eq_refl) as (Hf & Hh & Hc).
  split; [done |]. split; [done |]. split; [done |].
  intros Hq.
  assert (Hnone : transcribe_audio env path None w
                  = (whisper env (api_calls w) path x,
                     World (fs w) (ui w) (S (api_calls w)) (history w))).
  { unfold transcribe_audio.
    rewrite (bind_run_ok _ _ w w tt) by reflexivity.
    rewrite (bind_run_ok _ _ w w (st_size x)) by (by apply get_file_size_file).
    rewrite (size_router_small _ Hsz).
    rewrite (bind_run_ok _ _ w w tt) by reflexivity.
    by apply transcribe_file_file. }
  destruct (agree_transcribe_audio env cb (None : option (observer U)) Hq I path w w)
    as [Hr (_ & Hcalls & _)]; [done |].
  rewrite Hnone in Hr, Hcalls. done.
Qed.

(** X8.  A regular file below the threshold is transcribed on the direct
    path: whatever the observer and the outcome, the file system goes through
    no change at all and at most one call is made to the service; and when
    the observer is quiet or absent, exactly one call is made, it uploads the
    original file, and its answer (text or exception) is the outcome.  Neither
    the decoder nor the encoder takes part. *)
Theorem small_file_takes_the_direct_path :
  ∀ (U : Type) (env : Env) (path : string) (cb : option (observer U))
    (w : world U) (x : file),
    fs w !! path = Some (File x) →
    st_size x < max_file_size →
    fs (transcribe_audio env path cb w).2 = fs w
    ∧ history (transcribe_audio env path cb w).2 = history w
    ∧ (api_calls (transcribe_audio env path cb w).2 ≤ S (api_calls w))%nat
    ∧ (quiet cb →
       (transcribe_audio env path cb w).1 = whisper env (api_calls w) path x
       ∧ api_calls (transcribe_audio env path cb w).2 = S (api_calls w)).
Proof. exact small_file_direct_path. Qed.

(** X9.  For a path that does not exist, [transcribe_audio] with a quiet or
    absent observer raises the [FileNotFoundError] of [os.path.getsize]
    without calling the service and without touching the file system. *)
Theorem missing_file_fails_before_any_call :
  ∀ (U : Type) (env : Env) (path : string) (cb : option (observer U))
    (w : world U),
    quiet cb →
    fs w !! path = None →
    (transcribe_audio env path cb w).1 = inl (FileNotFoundError path)
    ∧ same_core (transcribe_audio env path cb w).2 w.
Proof.
  intros U env path cb w Hq Hl.
  assert (Hnone : transcribe_audio env path None w = (inl (FileNotFoundError path), w)).
  { unfold transcribe_audio.
    rewrite (bind_run_ok _ _ w w tt) by reflexivity.
    by rewrite bind_run, get_file_size_missing. }
  destruct (agree_transcribe_audio env cb (None : option (observer U)) Hq I path w w)
    as [Hr Hc]; [done |].
  rewrite Hnone in Hr, Hc. done.
Qed.

(** ** Calls to the service on the chunked path *)

Lemma make_chunks_length (a : AudioSegment) (L : Z) (chunks : list AudioSegment) :
  make_chunks a L = inr chunks →
  L ≠ 0 ∧ length chunks = Z.to_nat (ceil_div (len a) L).
Proof.
  unfold make_chunks. destruct (Z.eqb_spec L 0); [discriminate |].
  intros [= <-]. split; [done |]. by rewrite length_map, length_seq.
Qed.

(** X11.  A successful run of the chunked pipeline makes exactly one call to
    the service per chunk, that is, [ceil(D / L)] calls for audio of duration
    [D] ms and chunk duration [L] ms. *)
Theorem successful_run_calls_once_per_chunk :
  ∀ (U : Type) (env : Env) (path : string) (cb : option (observer U))
    (w w' : world U) (t : string),
    transcribe_large_file env path cb w = (inr t, w') →
    ∃ (x : file) (audio : AudioSegment) (chunks : list AudioSegment) (L : Z),
      fs w !! path = Some (File x)
      ∧ decode env (audio_format_of (file_ext_of path)) x = inr audio
      ∧ chunk_length_ms audio 20 = inr L ∧ L ≠ 0
      ∧ split_audio_into_chunks audio 20 = inr chunks
      ∧ length chunks = Z.to_nat (ceil_div (len audio) L)
      ∧ api_calls w' = (api_calls w + length chunks)%nat.
Proof.
  intros U env path cb w w' t H. unfold transcribe_large_file in H.
  apply bind_inr_inv in H as (x0 & wa & Hn1 & H).
  apply bind_inr_inv in H as ([audio ext] & wb & Hload & H).
  apply bind_inr_inv in H as (x1 & wc & Hn2 & H).
  apply bind_inr_inv in H as (chunks & wd & Hsplit & H).
  apply bind_inr_inv in H as (x2 & we & Hn3 & H).
  apply bind_inr_inv in H as (x3 & wf & Hmk & H).
  apply try_finally_inr_inv in H as (wg & x4 & Hbody & Hfin).
  apply bind_inr_inv in Hbody as (ts & wh & Hloop & Hbody).
  apply bind_inr_inv in Hbody as (x5 & wi & Hn4 & Hret).
  apply notify_inr_inv in Hn1 as (Hf1 & Hc1 & _).
  apply load_audio_inr_inv in Hload as (x & Hlk & _ & Hdec & _ & ->).
  apply notify_inr_inv in Hn2 as (Hf2 & Hc2 & _).
  unfold lift in Hsplit. inversion Hsplit as [[Hsp Hw]]; subst wd. clear Hsplit.
  apply notify_inr_inv in Hn3 as (Hf3 & Hc3 & _).
  apply notify_inr_inv in Hn4 as (Hf4 & Hc4 & _).
  inversion Hret; subst wg. clear Hret.
  pose proof (mkdir_exist_ok_post temp_dir we) as Hpost. rewrite Hmk in Hpost.
  destruct Hpost as (Hdir & Hc5 & _).
  assert (Hdi : fs wi !! temp_dir = Some Dir).
  { rewrite Hf4.
    pose proof (chunk_loop_keeps_dir env cb (length chunks) chunks 0 [] wf Hdir) as Hk.
    by rewrite Hloop in Hk. }
  destruct (cleanup_removes_tree wi Hdi) as (w'' & Hrun & _ & Hc6 & _).
  rewrite Hrun in Hfin. inversion Hfin; subst w''. clear Hfin.
  apply chunk_loop_transcripts in Hloop as (texts & _ & _ & Hc7 & _).
  cbn [fst] in Hsp.
  assert (Hsp' := Hsp). unfold split_audio_into_chunks in Hsp'.
  destruct (chunk_length_ms audio 20) as [e | L] eqn:HL; [discriminate |].
  apply make_chunks_length in Hsp' as [HL0 Hlen].
  exists x, audio, chunks, L.
  split; [by rewrite <- Hf1 |]. split; [done |]. split; [done |]. split; [done |].
  split; [done |]. split; [done |].
  rewrite Hc6, Hc4, Hc7, Hc5, Hc3, Hc2, Hc1. reflexivity.
Qed.

(** ** A failing call *)

Lemma below_empty_lookup (f : FS) (n : string) :
  below_temp_dir f = ∅ → f !! path_join temp_dir n = None.
Proof.
  intros Hb. destruct (f !! path_join temp_dir n) as [x |] eqn:Hl; [| done].
  assert (Hin : below_temp_dir f !! path_join temp_dir n = Some x)
    by (apply map_lookup_filter_Some; split; [done | apply temp_file_below]).
  by rewrite Hb, lookup_empty in Hin.
Qed.

Section FailingCall.

Context {U : Type}.
Variable env : Env.
Implicit Types w : world U.

Lemma export_ok chunk n w (f : file) :
  fs w !! temp_dir = Some Dir →
  fs w !! path_join temp_dir n = None →
  encode_mp3 env chunk = inr f →
  export env chunk temp_dir n w
  = (inr tt,
     World (<[path_join temp_dir n := File f]> (fs w)) (ui w) (api_calls w)
           (<[path_join temp_dir n := File f]> (fs w) :: history w)).
Proof.
  intros Hd Hl He. unfold export. rewrite bind_run. simpl.
  by rewrite Hd, Hl, He.
Qed.

Lemma unlink_ok p w (f : file) :
  fs w !! p = Some (File f) →
  unlink p w
  = (inr tt, World (delete p (fs w)) (ui w) (api_calls w) (delete p (fs w) :: history w)).
Proof. intros Hl. unfold unlink. rewrite bind_run. simpl. by rewrite Hl. Qed.

(** Without observer: the loop when the call for chunk [k] is the first to
    fail. *)
Lemma chunk_loop_fails_at total chunks :
  ∀ (i : nat) (acc : list string) w (k : nat) (ck : AudioSegment) (fk : file) (e : exn),
    fs w !! temp_dir = Some Dir →
    below_temp_dir (fs w) = ∅ →
    chunks !! k = Some ck →
    (∀ (j : nat) (c : AudioSegment),
        (j < k)%nat → chunks !! j = Some c →
        ∃ (f : file) (t : string),
          encode_mp3 env c = inr f
          ∧ whisper env (api_calls w + j) (path_join temp_dir (chunk_name (i + j))) f
            = inr t) →
    encode_mp3 env ck = inr fk →
    whisper env (api_calls w + k) (path_join temp_dir (chunk_name (i + k))) fk = inl e →
    ∃ w' : world U,
      chunk_loop env None total i chunks acc w = (inl e, w')
      ∧ api_calls w' = (api_calls w + k + 1)%nat.
Proof.
  induction chunks as [| chunk rest IH]; intros i acc w k ck fk e Hd Hb Hk Hbefore Henc Hfail.
  - by rewrite lookup_nil in Hk.
  - pose proof (below_empty_lookup (fs w) (chunk_name i) Hb) as Hfree.
    cbn [chunk_loop].
    rewrite (bind_run_ok _ _ w w tt) by reflexivity.
    destruct k as [| k].
    + simpl in Hk. inversion Hk; subst chunk. clear Hk.
      rewrite !Nat.add_0_r in Hfail.
      erewrite bind_run_ok by (by apply export_ok).
      rewrite bind_run.
      erewrite transcribe_file_file by (simpl; apply lookup_insert_eq).
      simpl. rewrite Hfail. eexists. split; [reflexivity |]. simpl. lia.
    + simpl in Hk.
      destruct (Hbefore 0%nat chunk ltac:(lia) eq_refl) as (f & t & Hef & Hwt).
      rewrite !Nat.add_0_r in Hwt.
      erewrite bind_run_ok by (by apply export_ok).
      erewrite bind_run_ok;
        [| erewrite transcribe_file_file by (simpl; apply lookup_insert_eq);
           simpl; rewrite Hwt; reflexivity].
      erewrite bind_run_ok by (apply unlink_ok with (f := f); simpl; apply lookup_insert_eq).
      rewrite (bind_run_ok _ _ _ _ tt) by reflexivity.
      cbn [fs ui api_calls history].
      rewrite delete_insert_id by done.
      edestruct (IH (S i) (acc ++ [t])
                   (World (fs w) (ui w) (S (api_calls w))
                      (fs w :: <[path_join temp_dir (chunk_name i) := File f]> (fs w)
                       :: history w))
                   k ck fk e) as (w' & Hrun & Hcalls); try done.
      * intros j c Hj Hc. cbn [api_calls].
        destruct (Hbefore (S j) c ltac:(lia) Hc) as (f' & t' & He' & Hw').
        exists f', t'. split; [done |].
        rewrite !Nat.add_succ_r in Hw'. rewrite !Nat.add_succ_l. exact Hw'.
      * cbn [api_calls]. rewrite !Nat.add_succ_r in Hfail.
        rewrite !Nat.add_succ_l. exact Hfail.
      * exists w'. split; [exact Hrun |]. rewrite Hcalls. simpl. lia.
Qed.

End FailingCall.

Lemma no_temp_tree_mkdir {U} (w : world U) :
  no_temp_tree (fs w) →
  mkdir_exist_ok temp_dir w
  = (inr tt, World (<[temp_dir := Dir]> (fs w)) (ui w) (api_calls w)
               (<[temp_dir := Dir]> (fs w) :: history w)).
Proof.
  intros [Hd _]. unfold mkdir_exist_ok. rewrite bind_run. simpl. by rewrite Hd.
Qed.

(** X12.  When the service fails on the call for chunk [k] (counting from 0),
    every earlier chunk having been exported and transcribed, a run of the
    chunked pipeline with a quiet or absent observer, started without the
    working tree, raises that very exception, has made exactly [k + 1] calls,
    never exports a later chunk, returns no partial transcript and leaves the
    file system as it found it. *)
Theorem service_failure_aborts_the_run :
  ∀ (U : Type) (env : Env) (path : string) (cb : option (observer U))
    (w : world U) (x : file) (audio : AudioSegment) (chunks : list AudioSegment)
    (k : nat) (ck : AudioSegment) (fk : file) (e : exn),
    quiet cb →
    no_temp_tree (fs w) →
    fs w !! path = Some (File x) →
    ffmpeg_installed env = true →
    decode env (audio_format_of (file_ext_of path)) x = inr audio →
    split_audio_into_chunks audio 20 = inr chunks →
    chunks !! k = Some ck →
    (∀ (j : nat) (c : AudioSegment),
        (j < k)%nat → chunks !! j = Some c →
        ∃ (f : file) (t : string),
          encode_mp3 env c = inr f
          ∧ whisper env (api_calls w + j) (path_join temp_dir (chunk_name j)) f = inr t) →
    encode_mp3 env ck = inr fk →
    whisper env (api_calls w + k) (path_join temp_dir (chunk_name k)) fk = inl e →
    (transcribe_large_file env path cb w).1 = inl e
    ∧ api_calls (transcribe_large_file env path cb w).2 = (api_calls w + k + 1)%nat
    ∧ fs (transcribe_large_file env path cb w).2 = fs w.
Proof.
  intros U env path cb w x audio chunks k ck fk e
    Hq Hno Hlk Hff Hdec Hsplit Hk Hbefore Henc Hfail.
  split; [| split; [| by apply transcribe_large_file_restores]].
  all: destruct (agree_transcribe_large_file env cb (None : option (observer U))
                   Hq I path w w) as [Hr (_ & Hc & _)]; [done |];
       rewrite ?Hr, ?Hc; clear Hr Hc.
  all: unfold transcribe_large_file;
       rewrite (bind_run_ok _ _ w w tt) by reflexivity;
       rewrite (bind_run_ok _ _ w w (audio, file_ext_of path))
         by (by apply (load_audio_ok env path w x));
       rewrite (bind_run_ok _ _ w w tt) by reflexivity;
       rewrite (bind_run_ok _ _ w w chunks) by (unfold lift; cbn [fst]; by rewrite Hsplit);
       rewrite (bind_run_ok _ _ w w tt) by reflexivity;
       erewrite bind_run_ok by (by apply no_temp_tree_mkdir);
       unfold try_finally; rewrite bind_run.
  all: edestruct (chunk_loop_fails_at env (length chunks) chunks 0 []
                    (World (<[temp_dir := Dir]> (fs w)) (ui w) (api_calls w)
                       (<[temp_dir := Dir]> (fs w) :: history w))
                    k ck fk e) as (w1 & Hrun & Hcalls);
       [ apply lookup_insert_eq
       | simpl; rewrite below_insert_dir; apply Hno
       | exact Hk | exact Hbefore | exact Henc | exact Hfail | ].
  all: rewrite Hrun;
       assert (Hd1 : fs w1 !! temp_dir = Some Dir)
         by (pose proof (chunk_loop_keeps_dir env None (length chunks) chunks 0 []
                           (World (<[temp_dir := Dir]> (fs w)) (ui w) (api_calls w)
                              (<[temp_dir := Dir]> (fs w) :: history w))
                           (lookup_insert_eq _ _ _)) as Hkd;
             by rewrite Hrun in Hkd);
       destruct (cleanup_removes_tree w1 Hd1) as (w2 & -> & _ & Hc2 & _).
  - reflexivity.
  - simpl. by rewrite Hc2, Hcalls.
Qed.

(** ** The further properties at the sample inputs *)

Lemma transcribe_audio_restores_file_system_witness :
  fs (transcribe_audio (flaky talk) "talk.mp3" None desk).2 = fs desk.
Proof.
  apply (transcribe_audio_restores_file_system unit (flaky talk) "talk.mp3" None desk).
  split; vm_compute; reflexivity.
Defined.

Lemma small_file_takes_the_direct_path_witness :
  fs (transcribe_audio no_engine "note.mp3" None drawer).2 = fs drawer
  ∧ history (transcribe_audio no_engine "note.mp3" None drawer).2 = history drawer
  ∧ (api_calls (transcribe_audio no_engine "note.mp3" None drawer).2
     ≤ S (api_calls drawer))%nat
  ∧ (quiet (None : option (observer unit)) →
     (transcribe_audio no_engine "note.mp3" None drawer).1
     = whisper no_engine (api_calls drawer) "note.mp3" note
     ∧ api_calls (transcribe_audio no_engine "note.mp3" None drawer).2
       = S (api_calls drawer)).
Proof.
  apply (small_file_takes_the_direct_path unit no_engine "note.mp3" None drawer note);
    vm_compute; reflexivity.
Defined.

Lemma missing_file_fails_before_any_call_witness :
  (transcribe_audio (studio talk) "gone.mp3" None desk).1
  = inl (FileNotFoundError "gone.mp3")
  ∧ same_core (transcribe_audio (studio talk) "gone.mp3" None desk).2 desk.
Proof.
  apply (missing_file_fails_before_any_call unit (studio talk) "gone.mp3" None desk);
    [exact I | vm_compute; reflexivity].
Defined.

Lemma successful_run_calls_once_per_chunk_witness :
  ∃ (x : file) (audio : AudioSegment) (chunks : list AudioSegment) (L : Z),
    fs desk !! "talk.mp3" = Some (File x)
    ∧ decode (studio talk) (audio_format_of (file_ext_of "talk.mp3")) x = inr audio
    ∧ chunk_length_ms audio 20 = inr L ∧ L ≠ 0
    ∧ split_audio_into_chunks audio 20 = inr chunks
    ∧ length chunks = Z.to_nat (ceil_div (len audio) L)
    ∧ api_calls (transcribe_large_file (studio talk) "talk.mp3" None desk).2
      = (api_calls desk + length chunks)%nat.
Proof.
  apply (successful_run_calls_once_per_chunk unit (studio talk) "talk.mp3" None desk
           (transcribe_large_file (studio talk) "talk.mp3" None desk).2
           "part0 part1 part2").
  vm_compute. reflexivity.
Defined.

Lemma split_talk :
  split_audio_into_chunks talk 20
  = inr (map (fun i : nat => slice talk (Z.of_nat i * 59443) ((Z.of_nat i + 1) * 59443))
             (seq 0 3)).
Proof.
  unfold split_audio_into_chunks.
  replace (chunk_length_ms talk 20) with (inr 59443 : exn + Z)
    by (vm_compute; reflexivity).
  unfold make_chunks. cbn [Z.eqb].
  replace (ceil_div (len talk) 59443) with 3 by (vm_compute; reflexivity).
  reflexivity.
Qed.

Lemma service_failure_aborts_the_run_witness :
  (transcribe_large_file (flaky talk) "talk.mp3" None desk).1
  = inl (Raise "APIError" "rate limit reached")
  ∧ api_calls (transcribe_large_file (flaky talk) "talk.mp3" None desk).2
    = (api_calls desk + 1 + 1)%nat
  ∧ fs (transcribe_large_file (flaky talk) "talk.mp3" None desk).2 = fs desk.
Proof.
  apply (service_failure_aborts_the_run unit (flaky talk) "talk.mp3" None desk upload talk
           (map (fun i : nat => slice talk (Z.of_nat i * 59443) ((Z.of_nat i + 1) * 59443))
                (seq 0 3))
           1 (slice talk (Z.of_nat 1 * 59443) ((Z.of_nat 1 + 1) * 59443))
           {| st_size := len (slice talk (Z.of_nat 1 * 59443) ((Z.of_nat 1 + 1) * 59443));
              content := [] |}).
  - exact I.
  - split; vm_compute; reflexivity.
  - vm_compute. reflexivity.
  - reflexivity.
  - cbv [decode flaky]. reflexivity.
  - exact split_talk.
  - reflexivity.
  - intros j c Hj Hc. assert (j = 0%nat) as -> by lia.
    eexists _, _. split; reflexivity.
  - reflexivity.
  - reflexivity.
Defined.
